(** * Filming-location scraper: the extraction and normalisation core

    A shallow embedding of [src/main.js] (the Apify actor that scrapes
    filming locations) and the properties of its specification.

    Layout of the development:
    - [JS]: the JavaScript values the program manipulates: strings as
      sequences of UTF-16 code units, numbers, the string built-ins;
    - [Regex]: the regular expressions of the program and a backtracking
      matcher with the priorities of the ECMAScript one, together with
      [match], [test], [replace] and [split];
    - the functions of [main.js], under their own names;
    - the properties. *)

From Stdlib Require Import List NArith ZArith QArith String Ascii Lia Lqa.
From stdpp Require Import gmap list sets.

Set Default Proof Using "Type".

(* ================================================================== *)
(** * JavaScript values *)
(* ================================================================== *)

Module JS.

(** A JavaScript string is a sequence of UTF-16 code units; [length] is
    the [.length] of the program. *)
Abbreviation jsstring := (list N).

(** The source file is UTF-8: its literals are read through this decoder
    (one to four bytes per code point, astral code points as a surrogate
    pair). *)
Fixpoint utf16_of_utf8 (bs : list N) : jsstring :=
  match bs with
  | [] => []
  | b :: r =>
    if (b <? 128)%N then b :: utf16_of_utf8 r
    else if (b <? 224)%N then
      match r with
      | b1 :: r1 => ((b - 192) * 64 + (b1 - 128))%N :: utf16_of_utf8 r1
      | [] => [65533%N]
      end
    else if (b <? 240)%N then
      match r with
      | b1 :: b2 :: r2 =>
        ((b - 224) * 4096 + (b1 - 128) * 64 + (b2 - 128))%N :: utf16_of_utf8 r2
      | _ => [65533%N]
      end
    else
      match r with
      | b1 :: b2 :: b3 :: r3 =>
        let cp := ((b - 240) * 262144 + (b1 - 128) * 4096
                   + (b2 - 128) * 64 + (b3 - 128) - 65536)%N in
        (55296 + cp / 1024)%N :: (56320 + cp mod 1024)%N :: utf16_of_utf8 r3
      | _ => [65533%N]
      end
  end.

Definition js (s : string) : jsstring :=
  utf16_of_utf8 (map N_of_ascii (list_ascii_of_string s)).

Definition ch (a : ascii) : N := N_of_ascii a.

(** ** Character predicates *)

Definition eqc (a : ascii) (c : N) : bool := (c =? ch a)%N.

Definition between (lo hi c : N) : bool := ((lo <=? c) && (c <=? hi))%N.

Definition one_of (l : list N) (c : N) : bool := existsb (N.eqb c) l.

(** [\d] *)
Definition digit (c : N) : bool := between 48 57 c.

(** [\s], which is also what [trim] strips: WhiteSpace and LineTerminator. *)
Definition space (c : N) : bool :=
  between 9 13 c || (c =? 32)%N || (c =? 160)%N || (c =? 5760)%N
  || between 8192 8202 c || (c =? 8232)%N || (c =? 8233)%N
  || (c =? 8239)%N || (c =? 8287)%N || (c =? 12288)%N || (c =? 65279)%N.

(** [.] without the [s] flag: anything but a line terminator. *)
Definition dot (c : N) : bool :=
  negb ((c =? 10)%N || (c =? 13)%N || (c =? 8232)%N || (c =? 8233)%N).

(** [[\s\S]] *)
Definition any (c : N) : bool := space c || negb (space c).

(** Case mapping, on the ASCII letters (the other code units are kept; no
    literal the program compares against has a non-ASCII letter). *)
Definition lower (c : N) : N := if between 65 90 c then (c + 32)%N else c.
Definition upper (c : N) : N := if between 97 122 c then (c - 32)%N else c.

Definition toLowerCase (s : jsstring) : jsstring := map lower s.
Definition toUpperCase (s : jsstring) : jsstring := map upper s.

(** A pattern character under the [i] flag. *)
Definition is_ci (x : N) (c : N) : bool := (upper c =? upper x)%N.

(** ** String built-ins *)

Fixpoint trimStart (s : jsstring) : jsstring :=
  match s with
  | c :: s' => if space c then trimStart s' else s
  | [] => []
  end.

Definition trimEnd (s : jsstring) : jsstring := rev (trimStart (rev s)).

Definition trim (s : jsstring) : jsstring := trimEnd (trimStart s).

Fixpoint startsWith (p s : jsstring) : bool :=
  match p, s with
  | [], _ => true
  | x :: p', y :: s' => (x =? y)%N && startsWith p' s'
  | _ :: _, [] => false
  end.

Fixpoint includes (s needle : jsstring) : bool :=
  startsWith needle s || match s with [] => false | _ :: s' => includes s' needle end.

(** [s.split(sep)] for a one-unit separator string. *)
Fixpoint split_on (sep : N) (cur s : jsstring) : list jsstring :=
  match s with
  | [] => [rev cur]
  | c :: s' => if (c =? sep)%N then rev cur :: split_on sep [] s'
               else split_on sep (c :: cur) s'
  end.

Definition split (sep : N) (s : jsstring) : list jsstring := split_on sep [] s.

(** [a.join(sep)] *)
Fixpoint join (sep : jsstring) (l : list jsstring) : jsstring :=
  match l with
  | [] => []
  | [x] => x
  | x :: l' => x ++ sep ++ join sep l'
  end.

(** [Boolean(s)] for a string: non-empty. *)
Definition truthy_str (s : jsstring) : bool :=
  match s with [] => false | _ :: _ => true end.

(** [a.slice(0, n)] *)
Definition slice0 {A} (n : nat) (l : list A) : list A := take n l.

(** ** Numbers

    A number is a rational or NaN. The values the program computes are
    decimal numerals of magnitude below 1000 and sums of three of them, so
    infinities do not arise; the rounding of IEEE doubles is abstracted
    away: a [Num q] stands for the double the program holds in place of
    [q], so a statement about numbers carries over to the program only if
    rounding keeps it (a non-strict bound of a numeral by a double does, a
    strict bound does not). *)
Inductive number : Type :=
| Num (q : Q)
| NaN.

Definition isNaN (n : number) : bool :=
  match n with NaN => true | Num _ => false end.

(** [Boolean(n)]: neither zero nor NaN. *)
Definition truthy (n : number) : bool :=
  match n with Num q => negb (Qeq_bool q 0) | NaN => false end.

Definition nadd (a b : number) : number :=
  match a, b with Num x, Num y => Num (x + y) | _, _ => NaN end.

Definition nmul (a b : number) : number :=
  match a, b with Num x, Num y => Num (x * y) | _, _ => NaN end.

(** Division by a non-zero constant. *)
Definition ndiv (a : number) (d : Q) : number :=
  match a with Num x => Num (x / d) | NaN => NaN end.

(** Longest prefix of code units satisfying [p], and what follows. *)
Fixpoint span (p : N → bool) (s : jsstring) : jsstring * jsstring :=
  match s with
  | c :: s' => if p c then let '(a, b) := span p s' in (c :: a, b) else ([], s)
  | [] => ([], [])
  end.

Definition digits_val (ds : jsstring) : N :=
  fold_left (λ acc d, (acc * 10 + (d - 48))%N) ds 0%N.

Definition pow10 (n : nat) : positive := Nat.iter n (Pos.mul 10) 1%positive.

(** The longest unsigned decimal literal at the start of [s]
    ([digits], [digits.], [digits.digits] or [.digits]), its value and the
    rest. Exponents, [Infinity] and the [0x] forms are left out: no string
    the program converts contains a letter. *)
Definition scan_decimal (s : jsstring) : option (Q * jsstring) :=
  let '(ip, r1) := span digit s in
  match r1 with
  | c :: r1' =>
    if eqc "." c then
      let '(fp, r2) := span digit r1' in
      match ip, fp with
      | [], [] => None
      | _, _ => Some (Z.of_N (digits_val (ip ++ fp)) # pow10 (length fp), r2)
      end
    else match ip with [] => None | _ => Some (Z.of_N (digits_val ip) # 1, r1) end
  | [] => match ip with [] => None | _ => Some (Z.of_N (digits_val ip) # 1, r1) end
  end.

Definition scan_signed (s : jsstring) : option (Q * jsstring) :=
  match s with
  | c :: s' =>
    if eqc "-" c then
      match scan_decimal s' with Some (q, r) => Some (- q, r) | None => None end
    else if eqc "+" c then scan_decimal s'
    else scan_decimal s
  | [] => None
  end.

(** [parseFloat(s)]: leading white space skipped, then the longest
    numeric prefix; NaN when there is none. *)
Definition parseFloat (s : jsstring) : number :=
  match scan_signed (trimStart s) with
  | Some (q, _) => Num q
  | None => NaN
  end.

(** [Number(s)] for a string: the whole trimmed string is a numeral; the
    empty string is 0. *)
Definition Number (s : jsstring) : number :=
  match trim s with
  | [] => Num 0
  | t => match scan_signed t with
         | Some (q, []) => Num q
         | _ => NaN
         end
  end.

End JS.

Import JS.

(* ================================================================== *)
(** * Regular expressions *)
(* ================================================================== *)

Module Regex.

(** The capture groups of a match in progress: group number to captured
    substring; an absent key is [undefined]. *)
Abbreviation caps := (gmap nat (list N)).

(** The fragment of the pattern language the program uses. Every
    quantifier but [?] is applied to a single character class, which is
    [Rep]; [Opt] is [r?] for a compound [r]. *)
Inductive regex : Type :=
| Eps
| Chr (p : N → bool)
| Seq (r1 r2 : regex)
| Alt (r1 r2 : regex)
| Rep (greedy : bool) (lo : nat) (hi : option nat) (p : N → bool)
| Opt (r : regex)
| Group (i : nat) (r : regex)
| Look (r : regex).

Declare Scope regex_scope.
Delimit Scope regex_scope with re.
Bind Scope regex_scope with regex.
Infix "⋅" := Seq (at level 40, left associativity) : regex_scope.

(** [p*], [p+], [p?], [p{lo,hi}] and [p*?] on a class. *)
Definition star (p : N → bool) : regex := Rep true 0 None p.
Definition plus (p : N → bool) : regex := Rep true 1 None p.
Definition opt1 (p : N → bool) : regex := Rep true 0 (Some 1) p.
Definition times (lo hi : nat) (p : N → bool) : regex := Rep true lo (Some hi) p.
Definition lazy_star (p : N → bool) : regex := Rep false 0 None p.

(** A literal, and a literal under the [i] flag. *)
Fixpoint lit (s : jsstring) : regex :=
  match s with
  | [] => Eps
  | [c] => Chr (N.eqb c)
  | c :: s' => Seq (Chr (N.eqb c)) (lit s')
  end.

Fixpoint lit_ci (s : jsstring) : regex :=
  match s with
  | [] => Eps
  | [c] => Chr (is_ci c)
  | c :: s' => Seq (Chr (is_ci c)) (lit_ci s')
  end.

(** ** The backtracking matcher

    Continuation-passing, as in the ECMAScript definition: a matcher
    receives the remaining input, the captures so far and what to do
    after it, and the first alternative whose continuation succeeds
    wins. *)

Definition may_take (hi : option nat) : bool :=
  match hi with Some 0 => false | _ => true end.

Definition less (hi : option nat) : option nat :=
  match hi with Some n => Some (pred n) | None => None end.

(** Greedy [p{lo,hi}]: as many as allowed first, then fewer. *)
Fixpoint rep_greedy {A} (p : N → bool) (lo : nat) (hi : option nat)
    (s : jsstring) (k : jsstring → option A) : option A :=
  let stop := match lo with 0 => k s | S _ => None end in
  match s with
  | c :: s' =>
    if p c && may_take hi
    then match rep_greedy p (pred lo) (less hi) s' k with
         | Some x => Some x
         | None => stop
         end
    else stop
  | [] => stop
  end.

(** Lazy [p{lo,hi}?]: as few as allowed first, then more. *)
Fixpoint rep_lazy {A} (p : N → bool) (lo : nat) (hi : option nat)
    (s : jsstring) (k : jsstring → option A) : option A :=
  let more :=
    match s with
    | c :: s' =>
      if p c && may_take hi then rep_lazy p (pred lo) (less hi) s' k else None
    | [] => None
    end in
  match lo with
  | 0 => match k s with Some x => Some x | None => more end
  | S _ => more
  end.

(** The substring of [s] consumed when [s'] is what remains. *)
Definition consumed (s s' : jsstring) : jsstring :=
  take (length s - length s') s.

Fixpoint rmatch {A} (r : regex) (s : jsstring) (c : caps)
    (k : jsstring → caps → option A) : option A :=
  match r with
  | Eps => k s c
  | Chr p =>
    match s with
    | x :: s' => if p x then k s' c else None
    | [] => None
    end
  | Seq r1 r2 => rmatch r1 s c (λ s1 c1, rmatch r2 s1 c1 k)
  | Alt r1 r2 =>
    match rmatch r1 s c k with
    | Some x => Some x
    | None => rmatch r2 s c k
    end
  | Rep true lo hi p => rep_greedy p lo hi s (λ s', k s' c)
  | Rep false lo hi p => rep_lazy p lo hi s (λ s', k s' c)
  | Opt r1 =>
    (* an iteration that consumes nothing is rejected; the groups inside
       [r1] are still unset when it is entered, no pattern of the program
       repeating an optional part *)
    match rmatch r1 s c
            (λ s1 c1, if length s1 =? length s then None else k s1 c1) with
    | Some x => Some x
    | None => k s c
    end
  | Group i r1 =>
    rmatch r1 s c (λ s1 c1, k s1 (<[i := consumed s s1]> c1))
  | Look r1 =>
    match rmatch r1 s c (λ _ c1, Some c1) with
    | Some c1 => k s c1
    | None => None
    end
  end.

(** A match: where it starts, the matched substring ([m[0]]), the groups
    and the input after it. *)
Record MatchResult : Type := {
  m_index : nat;
  m_whole : jsstring;
  m_groups : caps;
  m_rest : jsstring
}.

(** [m[i]] for [i ≥ 1]. *)
Definition grp (m : MatchResult) (i : nat) : option jsstring := m_groups m !! i.

(** The match starting exactly at the head of [s]. *)
Definition match_at (r : regex) (s : jsstring) : option (jsstring * caps) :=
  rmatch r s ∅ (λ s' c, Some (s', c)).

(** Leftmost match at or after the head of [s], which sits at index [i]. *)
Fixpoint search (r : regex) (i : nat) (s : jsstring) : option MatchResult :=
  match match_at r s with
  | Some (s', c) =>
    Some {| m_index := i; m_whole := consumed s s'; m_groups := c; m_rest := s' |}
  | None =>
    match s with
    | [] => None
    | _ :: t => search r (S i) t
    end
  end.

(** [s.match(r)] without the [g] flag. *)
Definition str_match (r : regex) (s : jsstring) : option MatchResult :=
  search r 0 s.

(** [r.test(s)] *)
Definition test (r : regex) (s : jsstring) : bool :=
  match str_match r s with Some _ => true | None => false end.

(** A replacement string: literal text and [$n] references; the
    reference to a group that did not take part is the empty string. *)
Inductive piece : Type :=
| Text (t : jsstring)
| Ref (i : nat).

Definition expand (tpl : list piece) (c : caps) : jsstring :=
  flat_map (λ p, match p with
                 | Text t => t
                 | Ref i => default [] (c !! i)
                 end) tpl.

(** [s.replace(r, tpl)] with the [g] flag. [skip] counts the code units
    of the current match still to be passed over. After an empty match
    the scan moves on by one unit. *)
Fixpoint replace_go (r : regex) (tpl : list piece) (skip : nat)
    (s : jsstring) : jsstring :=
  match skip with
  | S n => match s with
           | _ :: s' => replace_go r tpl n s'
           | [] => []
           end
  | 0 =>
    match s with
    | [] => match match_at r [] with
            | Some (_, c) => expand tpl c
            | None => []
            end
    | x :: s' =>
      match match_at r s with
      | Some (rest, c) =>
        match length s - length rest with
        | 0 => expand tpl c ++ x :: replace_go r tpl 0 s'
        | S n => expand tpl c ++ replace_go r tpl n s'
        end
      | None => x :: replace_go r tpl 0 s'
      end
    end
  end.

Definition replace_all (r : regex) (tpl : list piece) (s : jsstring) : jsstring :=
  replace_go r tpl 0 s.

(** [s.split(r)] for a pattern without groups. [cur] is the piece being
    accumulated, reversed. A match is a separator unless it is empty and
    sits where the previous separator ended. *)
Fixpoint split_go (r : regex) (skip : nat) (cur : jsstring)
    (s : jsstring) : list jsstring :=
  match skip with
  | S n => match s with
           | _ :: s' => split_go r n cur s'
           | [] => [rev cur]
           end
  | 0 =>
    match s with
    | [] => [rev cur]
    | x :: s' =>
      match match_at r s with
      | Some (rest, _) =>
        match length s - length rest, cur with
        | 0, [] => split_go r 0 [x] s'
        | 0, _ :: _ => rev cur :: split_go r 0 [x] s'
        | S n, _ => rev cur :: split_go r n [] s'
        end
      | None => split_go r 0 (x :: cur) s'
      end
    end
  end.

Definition split_re (r : regex) (s : jsstring) : list jsstring :=
  match s with
  | [] => match match_at r [] with Some _ => [] | None => [[]] end
  | _ => split_go r 0 [] s
  end.

(** ** What a match is, declaratively

    [matches r s c s' c']: from input [s] and captures [c], the pattern
    [r] can consume down to [s'] and leave the captures [c']. The matcher
    only ever answers with such a match ([rmatch_sound]); which one it
    picks is its priority order. *)
Definition within (hi : option nat) (n : nat) : Prop :=
  match hi with Some h => n ≤ h | None => True end.

Fixpoint matches (r : regex) (s : jsstring) (c : caps)
    (s' : jsstring) (c' : caps) : Prop :=
  match r with
  | Eps => s' = s ∧ c' = c
  | Chr p => ∃ x, s = x :: s' ∧ p x = true ∧ c' = c
  | Seq r1 r2 => ∃ s1 c1, matches r1 s c s1 c1 ∧ matches r2 s1 c1 s' c'
  | Alt r1 r2 => matches r1 s c s' c' ∨ matches r2 s c s' c'
  | Rep _ lo hi p =>
    ∃ w, s = w ++ s' ∧ Forall (λ x, p x = true) w
         ∧ lo ≤ length w ∧ within hi (length w) ∧ c' = c
  | Opt r1 => (s' = s ∧ c' = c) ∨ matches r1 s c s' c'
  | Group i r1 =>
    ∃ w c1, matches r1 s c s' c1 ∧ s = w ++ s' ∧ c' = <[i := w]> c1
  | Look r1 => s' = s ∧ ∃ s1, matches r1 s c s1 c'
  end.

End Regex.

Import Regex.

(* ================================================================== *)
(** * main.js *)
(* ================================================================== *)

(** The actor input, with the defaults of the destructuring at the top
    of the file. *)
Record Input : Type := {
  startUrls : list jsstring;
  maxRequestsPerCrawl : nat;
  useBrowser : bool;
  useWikipediaApi : bool;
  followInternalOnly : bool;
  concurrency : nat;
  validateCoordinates : bool
}.

Definition default_input : Input := {|
  startUrls := [js "https://en.wikipedia.org/wiki/Inception";
                js "https://www.imdb.com/title/tt1375666/locations"];
  maxRequestsPerCrawl := 500;
  useBrowser := false;
  useWikipediaApi := true;
  followInternalOnly := true;
  concurrency := 10;
  validateCoordinates := false
|}.

(** ** tryParseCoordinates *)

Record Coordinates : Type := {
  latitude : number;
  longitude : number
}.

(** [-?\d{1,3}\.\d+] *)
Definition signed_decimal : regex :=
  (opt1 (eqc "-") ⋅ times 1 3 digit ⋅ Chr (eqc ".") ⋅ plus digit)%re.

(** [/(-?\d{1,3}\.\d+)\s*[,\s]\s*(-?\d{1,3}\.\d+)/] *)
Definition decimal_re : regex :=
  (Group 1 signed_decimal ⋅ star space ⋅ Chr (λ c, eqc "," c || space c)
   ⋅ star space ⋅ Group 2 signed_decimal)%re.

(** [°] is U+00B0, [′] U+2032 and [″] U+2033. *)
Definition degree_or_space (c : N) : bool := (c =? 176)%N || space c.
Definition minute_mark : N → bool := one_of [8242%N; ch "'"].
Definition second_mark : N → bool := one_of [8243%N; 34%N].

(** [\d{1,2}(?:\.\d+)?] *)
Definition seconds_re : regex :=
  (times 1 2 digit ⋅ Opt (Chr (eqc ".") ⋅ plus digit))%re.

(** One axis of the DMS pattern, its four groups numbered from [g]:
    [(\d{1,3})[°\s]+(\d{1,2})[′']\s*(\d{1,2}(?:\.\d+)?)?[″\x22]?\s*([..])]
    where x22 stands for the straight double quote and the last class is
    the hemisphere letters [hemi]. *)
Definition dms_axis (g : nat) (hemi : jsstring) : regex :=
  (Group g (times 1 3 digit) ⋅ plus degree_or_space
   ⋅ Group (g + 1) (times 1 2 digit) ⋅ Chr minute_mark ⋅ star space
   ⋅ Opt (Group (g + 2) seconds_re) ⋅ opt1 second_mark ⋅ star space
   ⋅ Group (g + 3) (Chr (one_of hemi)))%re.

Definition dms_re : regex :=
  (dms_axis 1 (js "NnSs") ⋅ star space ⋅ opt1 (eqc ",") ⋅ star space
   ⋅ dms_axis 5 (js "EeWw"))%re.

(** [parseFloat(m[i])] and [Number(m[i])]; [undefined] converts to NaN. *)
Definition parseFloat_grp (g : option jsstring) : number :=
  match g with Some s => parseFloat s | None => NaN end.

Definition Number_grp (g : option jsstring) : number :=
  match g with Some s => Number s | None => NaN end.

(** [Number(m[i] || 0)] *)
Definition Number_or0 (g : option jsstring) : number :=
  match g with
  | Some ((_ :: _) as s) => Number s
  | _ => Num 0
  end.

(** [m[i].toUpperCase() === 'S' ? -1 : 1]. The hemisphere groups lie
    outside every optional part, so they are set in every match
    ([dms_re_caps]). *)
Definition hem_sign (g : option jsstring) (neg : ascii) : number :=
  if bool_decide (toUpperCase (default [] g) = [ch neg])
  then Num (-1) else Num 1.

(** Lines 41 to 43: the body of [if (decMatch)]. *)
Definition from_decMatch (m : MatchResult) : option Coordinates :=
  let lat := parseFloat_grp (grp m 1) in
  let lon := parseFloat_grp (grp m 2) in
  if negb (isNaN lat) && negb (isNaN lon)
  then Some {| latitude := lat; longitude := lon |}
  else None.

(** Lines 49 to 59: the body of [if (dmsMatch)]. *)
Definition from_dmsMatch (m : MatchResult) : Coordinates :=
  let latDeg := Number_grp (grp m 1) in
  let latMin := Number_or0 (grp m 2) in
  let latSec := Number_or0 (grp m 3) in
  let lonDeg := Number_grp (grp m 5) in
  let lonMin := Number_or0 (grp m 6) in
  let lonSec := Number_or0 (grp m 7) in
  let lat := nmul (nadd (nadd latDeg (ndiv latMin 60)) (ndiv latSec 3600))
                  (hem_sign (grp m 4) "S") in
  let lon := nmul (nadd (nadd lonDeg (ndiv lonMin 60)) (ndiv lonSec 3600))
                  (hem_sign (grp m 8) "W") in
  {| latitude := lat; longitude := lon |}.

Definition tryParseCoordinates (text : jsstring) : option Coordinates :=
  match
    match str_match decimal_re text with
    | Some decMatch => from_decMatch decMatch
    | None => None
    end
  with
  | Some c => Some c
  | None =>
    match str_match dms_re text with
    | Some dmsMatch => Some (from_dmsMatch dmsMatch)
    | None => None
    end
  end.

(** ** extractPossibleLocationsFromText *)

(** [/[\n;—–-]+/]: line feed, semicolon, em dash, en dash, hyphen. *)
Definition separator_re : regex :=
  plus (one_of [10%N; ch ";"; 8212%N; 8211%N; ch "-"]).

Definition extractPossibleLocationsFromText (text : jsstring) : list jsstring :=
  filter (λ s, truthy_str s = true) (map trim (split_re separator_re text)).

(** ** findFilmingLocationsFromWikiWikitext *)

(** [/(?:(==+\s*Filming locations\s*==+)[\s\S]*?)(?==+)/i] *)
Definition section_re : regex :=
  (Group 1 (Chr (eqc "=") ⋅ plus (eqc "=") ⋅ star space
            ⋅ lit_ci (js "Filming locations")
            ⋅ star space ⋅ Chr (eqc "=") ⋅ plus (eqc "="))
   ⋅ lazy_star any ⋅ Look (plus (eqc "=")))%re.

(** [/'''/g] *)
Definition bold_re : regex := lit (js "'''").

(** [/\{\{.*?\}\}/g] *)
Definition template_re : regex :=
  (lit (js "{{") ⋅ lazy_star dot ⋅ lit (js "}}"))%re.

(** [/\[http[^\]]+\]/g] *)
Definition extlink_re : regex :=
  (lit (js "[http") ⋅ plus (λ c, negb (eqc "]" c)) ⋅ Chr (eqc "]"))%re.

(** [/\[\[([^\]|]+)(?:\|([^\]]+))?\]\]/g] *)
Definition wikilink_re : regex :=
  (lit (js "[[") ⋅ Group 1 (plus (λ c, negb (eqc "]" c || eqc "|" c)))
   ⋅ Opt (Chr (eqc "|") ⋅ Group 2 (plus (λ c, negb (eqc "]" c))))
   ⋅ lit (js "]]"))%re.

(** The four [replace] calls of line 94. *)
Definition clean_markup (section : jsstring) : jsstring :=
  replace_all wikilink_re [Ref 2; Ref 1]
    (replace_all extlink_re []
      (replace_all template_re []
        (replace_all bold_re [] section))).

Definition plausible_line (l : jsstring) : bool :=
  (5 <? length l) && (length l <? 400).

Definition lines_of (cleaned : jsstring) : list jsstring :=
  filter (λ s, truthy_str s = true) (map trim (split 10 cleaned)).

(** The argument is [None] for [null]. *)
Definition findFilmingLocationsFromWikiWikitext
    (wikitext : option jsstring) : list jsstring :=
  match wikitext with
  | None | Some [] => []
  | Some wikitext =>
    match str_match section_re wikitext with
    | None => []
    | Some m =>
      let section := m_whole m in
      let cleaned := clean_markup section in
      let lines := lines_of cleaned in
      slice0 200 (filter (λ l, plausible_line l = true) lines)
    end
  end.

(** ** extractFromCheerio *)

(** What the handler reads from the page through [$]: the document is
    given by the answers to the selector queries the handler makes. *)
Record Node : Type := {
  node_name : jsstring;           (* node[0].name *)
  node_text : jsstring            (* node.text() *)
}.

Record Heading : Type := {
  h_text : jsstring;              (* $(el).text() *)
  h_next : list Node              (* $(h).next(), then .next() of it, ... *)
}.

Record Page : Type := {
  p_url : jsstring;               (* request.loadedUrl ?? request.url *)
  p_h1 : jsstring;                (* $('h1, #firstHeading').first().text() *)
  p_og_title : option jsstring;   (* $('meta[property=og:title]').attr('content') *)
  p_headings : list Heading;      (* $('h2, h3, h4'), in document order *)
  p_filmingLocations : nat;       (* $('#filmingLocations').length *)
  p_items : list jsstring;        (* text of each 'li, .ipl-zebra-list__item, .soda, .filming-location' *)
  p_paragraphs : list jsstring;   (* text of each 'p, li, td' *)
  p_wikitext : option jsstring;   (* what fetchWikipediaWikitext(url) resolves to *)
  p_now : jsstring                (* new Date().toISOString() *)
}.

Record LocationRecord : Type := {
  movie_title : jsstring;
  year : jsstring;
  location_text : jsstring;
  city : jsstring;
  region : jsstring;
  country : jsstring;
  rec_latitude : option number;   (* latitude; [None] is null *)
  rec_longitude : option number;  (* longitude *)
  source_url : jsstring;
  extracted_at : jsstring
}.

Record Audit : Type := {
  a_url : jsstring;
  a_title : jsstring;
  extracted_locations : list jsstring;
  a_timestamp : jsstring
}.

(** [\w] *)
Definition word (c : N) : bool :=
  digit c || between 65 90 c || between 97 122 c || eqc "_" c.

(** [title.match(/\b(19|20)\d{2}\b/)], [m[0]] of it. [prev] tells whether
    the unit before the head of [s] is a word character. *)
Fixpoint year_search (prev : bool) (s : jsstring) : option jsstring :=
  match s with
  | [] => None
  | a :: s' =>
    match s' with
    | b :: d1 :: d2 :: r =>
      if negb prev
         && ((eqc "1" a && eqc "9" b) || (eqc "2" a && eqc "0" b))
         && digit d1 && digit d2
         && match r with [] => true | x :: _ => negb (word x) end
      then Some [a; b; d1; d2]
      else year_search (word a) s'
    | _ => year_search (word a) s'
    end
  end.

(** [/^h[1-6]$/i.test(name)] *)
Definition is_heading_name (name : jsstring) : bool :=
  match name with
  | [a; b] => is_ci (ch "h") a && between (ch "1") (ch "6") b
  | _ => false
  end.

(** The [while] loop of lines 125 to 130: at most [steps] siblings, up to
    the next heading. *)
Fixpoint gather (steps : nat) (nodes : list Node) : jsstring :=
  match steps, nodes with
  | S n, node :: rest =>
    if is_heading_name (node_name node) then []
    else [10%N] ++ node_text node ++ gather n rest
  | _, _ => []
  end.

(** Strategy 1 (lines 116 to 135). *)
Definition heading_locations (page : Page) : list jsstring :=
  flat_map
    (λ h, let gathered := gather 200 (h_next h) in
          if truthy_str (trim gathered)
          then extractPossibleLocationsFromText gathered
          else [])
    (filter (λ h, includes (toLowerCase (h_text h)) (js "filming location") = true)
            (p_headings page)).

(** [/imdb\.com\/title\/.+\/locations/i] *)
Definition imdb_re : regex :=
  (lit_ci (js "imdb.com/title/") ⋅ plus dot ⋅ lit_ci (js "/locations"))%re.

(** Strategy 2 (lines 137 to 142), given the locations found so far. *)
Definition layout_locations (page : Page) (locations : list jsstring) : list jsstring :=
  if test imdb_re (p_url page)
     || (negb (p_filmingLocations page =? 0) && (length locations =? 0))
  then filter (λ s, truthy_str s = true) (map trim (p_items page))
  else [].

(** [/filming location|filming locations|locations used|location(s)?/i] *)
Definition fallback_re : regex :=
  Alt (Alt (Alt (lit_ci (js "filming location"))
                (lit_ci (js "filming locations")))
           (lit_ci (js "locations used")))
      (lit_ci (js "location") ⋅ Opt (Group 1 (Chr (is_ci (ch "s")))))%re.

(** Strategy 3 (lines 144 to 154), given the locations found so far. *)
Definition fallback_locations (page : Page) (locations : list jsstring) : list jsstring :=
  if length locations =? 0
  then filter (λ p, test fallback_re p = true) (map trim (p_paragraphs page))
  else [].

(** The locations of the three DOM strategies, in the order they are
    pushed. *)
Definition dom_locations (page : Page) : list jsstring :=
  let l1 := heading_locations page in
  let l2 := l1 ++ layout_locations page l1 in
  l2 ++ fallback_locations page l2.

(** Strategy 4 (lines 156 to 165): [wikiLocations], empty when the branch
    is not taken or the fetch gave nothing. *)
Definition wiki_locations (input : Input) (page : Page) : list jsstring :=
  if useWikipediaApi input && includes (p_url page) (js "wikipedia.org")
  then match p_wikitext page with
       | Some ((_ :: _) as wikitext) => findFilmingLocationsFromWikiWikitext (Some wikitext)
       | _ => []
       end
  else [].

(** [locations] when the normalisation loop starts. *)
Definition collect_locations (input : Input) (page : Page) : list jsstring :=
  let locations := dom_locations page in
  let wikiLocations := wiki_locations input page in
  match wikiLocations with
  | [] => locations
  | _ :: _ => wikiLocations ++ locations
  end.

(** [loc.replace(/\s+/g, ' ').trim()] *)
Definition collapse (loc : jsstring) : jsstring :=
  trim (replace_all (plus space) [Text [ch " "]] loc).

(** The loop of lines 168 to 176, one iteration. *)
Record NormState : Type := {
  seen : gset (list N);
  normalized : list jsstring
}.

Definition normalize_step (st : NormState) (loc : jsstring) : NormState :=
  let text := collapse loc in
  if negb (truthy_str text) || (length text <? 3) then st
  else if bool_decide (text ∈ seen st) then st
  else {| seen := {[text]} ∪ seen st; normalized := normalized st ++ [text] |}.

Definition normalize (locations : list jsstring) : list jsstring :=
  normalized (foldl normalize_step {| seen := ∅; normalized := [] |} locations).

(** [locText.split(',').map(s => s.trim()).filter(Boolean)] *)
Definition comma_parts (locText : jsstring) : list jsstring :=
  filter (λ s, truthy_str s = true) (map trim (split (ch ",") locText)).

(** [x || null] on [coords.latitude], which is [undefined] when [coords]
    is [{}]. *)
Definition or_null (x : option number) : option number :=
  match x with
  | Some n => if truthy n then Some n else None
  | None => None
  end.

Definition title_of (page : Page) : jsstring :=
  match trim (p_h1 page) with
  | (_ :: _) as t => t
  | [] => match p_og_title page with
          | Some ((_ :: _) as t) => t
          | _ => []
          end
  end.

Definition year_of (title : jsstring) : jsstring :=
  default [] (year_search false title).

(** The body of the loop of lines 179 to 207, up to [pushData]. *)
Definition make_record (page : Page) (locText : jsstring) : LocationRecord :=
  let title := title_of page in
  let coords := tryParseCoordinates locText in
  let parts := comma_parts locText in
  let city := if 1 <=? length parts then nth 0 parts [] else [] in
  let country := if length parts =? 2 then nth 1 parts [] else [] in
  let region := if 3 <=? length parts then nth 1 parts [] else [] in
  let country := if 3 <=? length parts then join (js ", ") (drop 2 parts)
                 else country in
  {| movie_title := title;
     year := year_of title;
     location_text := locText;
     city := city;
     region := region;
     country := country;
     rec_latitude := or_null (latitude <$> coords);
     rec_longitude := or_null (longitude <$> coords);
     source_url := p_url page;
     extracted_at := p_now page |}.

(** The records one page run pushes, in order. *)
Definition page_records (input : Input) (page : Page) : list LocationRecord :=
  map (make_record page) (slice0 200 (normalize (collect_locations input page))).

Definition page_audit (input : Input) (page : Page) : Audit :=
  {| a_url := p_url page;
     a_title := title_of page;
     extracted_locations := slice0 500 (normalize (collect_locations input page));
     a_timestamp := p_now page |}.

Section Handler.

(** The actor input is a constant of the module and [encodeURIComponent]
    a built-in. The dataset, the key-value store and the log are objects
    of the crawling library, which is not part of the program: the handler
    is given what their calls do to the outside world, a call that throws
    giving [None] and being taken to leave that world as it was. *)
Variable input : Input.
Variable encodeURIComponent : jsstring → jsstring.
Variable World : Type.
Variable log_info : jsstring → World → World.
Variable log_warning : jsstring → World → World.
Variable pushData : LocationRecord → World → option World.
Variable setValue : jsstring → Audit → World → option World.

(** The [await dataset.pushData(record)] of each turn of the loop of
    lines 179 to 207; an exception leaves the loop and the handler. *)
Fixpoint push_all (records : list LocationRecord) (w : World) : option World :=
  match records with
  | [] => Some w
  | record :: rest =>
    match pushData record w with
    | Some w' => push_all rest w'
    | None => None
    end
  end.

(** The handler: the records are pushed, then the audit is written inside
    the [try] of lines 210 to 219, whose [catch] only logs a warning. *)
Definition extractFromCheerio (page : Page) (w : World) : option World :=
  match push_all (page_records input page) (log_info (p_url page) w) with
  | None => None
  | Some w1 =>
    match setValue (js "pages/" ++ encodeURIComponent (p_url page))
                   (page_audit input page) w1 with
    | Some w2 => Some w2
    | None => Some (log_warning (p_url page) w1)
    end
  end.

End Handler.

(* ================================================================== *)
(** * Auxiliary notions used by the statements *)
(* ================================================================== *)

(** [/\s+/g] replaced by one space, read off the input directly:
    [in_run] tells whether the previous unit was white space. *)
Fixpoint squeeze (in_run : bool) (s : jsstring) : jsstring :=
  match s with
  | [] => []
  | x :: s' =>
    if space x
    then if in_run then squeeze true s' else ch " " :: squeeze true s'
    else x :: squeeze false s'
  end.

(** No white space but single U+0020 units, none next to another;
    [after_space] tells whether a space stands just before. *)
Fixpoint tidy (after_space : bool) (s : jsstring) : bool :=
  match s with
  | [] => true
  | x :: s' =>
    if space x then negb after_space && (x =? ch " ")%N && tidy true s'
    else tidy false s'
  end.

(** A phrase the normalisation loop keeps when it is new. *)
Definition keepable (text : jsstring) : bool :=
  negb (negb (truthy_str text) || (length text <? 3)).

(** The phrases the loop appends when [acc] is what it has kept so far. *)
Fixpoint norm_from (acc : list jsstring) (locations : list jsstring) : list jsstring :=
  match locations with
  | [] => []
  | loc :: rest =>
    let text := collapse loc in
    if keepable text && negb (bool_decide (text ∈ acc))
    then text :: norm_from (acc ++ [text]) rest
    else norm_from acc rest
  end.

(** The invariant of the loop. *)
Definition norm_inv (st : NormState) : Prop :=
  seen st = list_to_set (normalized st).

(** A string is trimmed when [trim] leaves it as it is. *)
Definition trimmed (s : jsstring) : Prop := trim s = s.

(** The comparison key of a case-insensitive, white-space-collapsed
    deduplication. *)
Definition ci_key (s : jsstring) : jsstring := toLowerCase (collapse s).

(** A page that offers only list items, at an address of the listing
    layout. *)
Definition listing_page (items : list jsstring) : Page := {|
  p_url := js "https://www.imdb.com/title/tt1375666/locations";
  p_h1 := js "Inception (2010)";
  p_og_title := None;
  p_headings := [];
  p_filmingLocations := 0;
  p_items := items;
  p_paragraphs := [];
  p_wikitext := None;
  p_now := js "2024-01-01T00:00:00.000Z"
|}.

(** The value of the decimal numeral [ip.fp]. *)
Definition decimal_value (ip fp : jsstring) : Q :=
  Z.of_N (digits_val (ip ++ fp)) # pow10 (length fp).

Definition digits (w : jsstring) : Prop := Forall (λ a, digit a = true) w.

(** What [-?\d{1,3}\.\d+] matches: an optional minus sign, one to three
    digits, a point and at least one digit. *)
Definition signed_numeral (g : jsstring) (neg : bool) (ip fp : jsstring) : Prop :=
  g = (if neg then [ch "-"] else []) ++ ip ++ ch "." :: fp
  ∧ digits ip ∧ 1 ≤ length ip ≤ 3 ∧ digits fp ∧ 1 ≤ length fp.

(** What [\d{1,2}(?:\.\d+)?] matches, and its value. *)
Definition seconds_numeral (g : jsstring) (q : Q) : Prop :=
  ∃ ip, digits ip ∧ 1 ≤ length ip ≤ 2
        ∧ ((g = ip ∧ q = Z.of_N (digits_val ip) # 1)
           ∨ (∃ fp, digits fp ∧ 1 ≤ length fp
                    ∧ g = ip ++ ch "." :: fp ∧ q = decimal_value ip fp)).

(** The value of a string of digits, as a rational. *)
Definition digits_q (w : jsstring) : Q := Z.of_N (digits_val w) # 1.

(** [deg + min/60 + sec/3600], negated on the negative hemisphere. *)
Definition dms_decimal (deg min sec : Q) (negative : bool) : Q :=
  let v := (deg + min / 60 + sec / 3600)%Q in
  if negative then (- v)%Q else v.

(** The groups one axis of the DMS pattern sets: degrees, minutes,
    seconds when present, hemisphere letter. *)
Definition axis_caps (g : nat) (d mi : jsstring) (osec : option jsstring)
    (h : N) (c : caps) : caps :=
  <[g + 3 := [h]]>
    (match osec with
     | Some w => <[g + 2 := w]> (<[g + 1 := mi]> (<[g := d]> c))
     | None => <[g + 1 := mi]> (<[g := d]> c)
     end).

(** The value of the seconds group: 0 when it did not take part. *)
Definition seconds_of (osec : option jsstring) (q : Q) : Prop :=
  match osec with
  | Some w => seconds_numeral w q
  | None => q = 0%Q
  end.

(** The field derivation in the words of the specification: the segments
    are the pieces of the comma-split of the phrase (trimmed, as its
    scenario has them); one segment makes the whole phrase the city. *)
Definition spec_fields (phrase : jsstring) : jsstring * jsstring * jsstring :=
  match map trim (split (ch ",") phrase) with
  | [] => ([], [], [])
  | [_] => (phrase, [], [])
  | [a; b] => (a, [], b)
  | a :: b :: rest => (a, b, join (js ", ") rest)
  end.

(** The words of a phrase: its maximal runs of units that are not white
    space, in order. [cur] is the word being read, reversed. Two phrases
    differ only in white space when they have the same words. *)
Fixpoint words_go (cur : jsstring) (s : jsstring) : list jsstring :=
  match s with
  | [] => match cur with [] => [] | _ :: _ => [rev cur] end
  | x :: s' =>
    if space x
    then match cur with
         | [] => words_go [] s'
         | _ :: _ => rev cur :: words_go [] s'
         end
    else words_go (x :: cur) s'
  end.

Definition words (s : jsstring) : list jsstring := words_go [] s.

(** A page with one heading and what follows it. *)
Definition heading_page (heading : jsstring) (next : list Node) : Page := {|
  p_url := js "https://example.org/film";
  p_h1 := js "Inception";
  p_og_title := None;
  p_headings := [{| h_text := heading; h_next := next |}];
  p_filmingLocations := 0;
  p_items := [];
  p_paragraphs := [];
  p_wikitext := None;
  p_now := js "2024-01-01T00:00:00.000Z"
|}.

Definition sample_siblings : list Node :=
  [{| node_name := js "p"; node_text := js "Paris, France; London, UK" |};
   {| node_name := js "h2"; node_text := js "Cast" |};
   {| node_name := js "p"; node_text := js "Leonardo DiCaprio" |}].

(** A page source with a section of filming locations. *)
Definition wiki_sample : jsstring :=
  js "Intro text" ++ [10%N] ++ js "== Filming locations ==" ++ [10%N]
  ++ js "* '''Paris''', France {{cite|web}}" ++ [10%N]
  ++ js "  [[London]] bridge  " ++ [10%N]
  ++ js "ab" ++ [10%N] ++ js "== Cast ==" ++ [10%N].

(* ================================================================== *)
(** * Properties of the string built-ins *)
(* ================================================================== *)

Section Trim.

Implicit Types s t : jsstring.

Lemma trimStart_split s :
  ∃ w, s = w ++ trimStart s ∧ Forall (λ c, space c = true) w.
Proof.
  induction s as [|c s IH]; simpl.
  - exists []. split; [done | constructor].
  - destruct (space c) eqn:Hc.
    + destruct IH as (w & Hw & Hall). exists (c :: w). split.
      * simpl. by rewrite <- Hw.
      * by constructor.
    + exists []. split; [done | constructor].
Qed.

Lemma trimStart_head s c s' : trimStart s = c :: s' → space c = false.
Proof.
  induction s as [|x s IH]; simpl; [done |].
  destruct (space x) eqn:Hx; [done |]. intros [= -> _]. done.
Qed.

Lemma trimStart_fix s :
  (∀ c s', s = c :: s' → space c = false) → trimStart s = s.
Proof.
  destruct s as [|c s']; [done |]. intros H. simpl.
  by rewrite (H c s' eq_refl).
Qed.

Lemma trimStart_idem s : trimStart (trimStart s) = trimStart s.
Proof.
  apply trimStart_fix. intros c s'. apply trimStart_head.
Qed.

Lemma trimStart_length s : length (trimStart s) ≤ length s.
Proof.
  destruct (trimStart_split s) as (w & Hw & _).
  rewrite Hw at 2. rewrite length_app. lia.
Qed.

Lemma trimEnd_split s :
  ∃ w, s = trimEnd s ++ w ∧ Forall (λ c, space c = true) w.
Proof.
  unfold trimEnd. destruct (trimStart_split (rev s)) as (w & Hw & Hall).
  exists (rev w). split.
  - rewrite <- rev_app_distr, <- Hw. by rewrite rev_involutive.
  - by apply Forall_rev.
Qed.

Lemma trimEnd_idem s : trimEnd (trimEnd s) = trimEnd s.
Proof.
  unfold trimEnd. by rewrite rev_involutive, trimStart_idem.
Qed.

(** [trimEnd] keeps the first unit of what it does not empty. *)
Lemma trimEnd_head s c s' :
  trimEnd s = c :: s' → ∃ s'', s = c :: s''.
Proof.
  destruct (trimEnd_split s) as (w & Hw & _). intros E.
  rewrite E in Hw. simpl in Hw. eauto.
Qed.

Lemma trim_idem s : trim (trim s) = trim s.
Proof.
  unfold trim. rewrite (trimStart_fix (trimEnd (trimStart s))).
  - apply trimEnd_idem.
  - intros c s' E. apply trimEnd_head in E as [s'' E].
    by apply trimStart_head in E.
Qed.

Lemma trim_trimmed s : trimmed (trim s).
Proof. apply trim_idem. Qed.

Lemma trim_length s : length (trim s) ≤ length s.
Proof.
  unfold trim. destruct (trimEnd_split (trimStart s)) as (w & Hw & _).
  pose proof (trimStart_length s) as H.
  rewrite Hw in H. rewrite length_app in H. lia.
Qed.

(** A trimmed string neither starts nor ends with white space. *)
Lemma trimmed_first s c s' : trimmed s → s = c :: s' → space c = false.
Proof.
  unfold trimmed, trim. intros H E.
  rewrite E in H at 2. apply trimEnd_head in H as [s'' H].
  by apply trimStart_head in H.
Qed.

Lemma trimEnd_last s s' c : trimEnd s = s' ++ [c] → space c = false.
Proof.
  unfold trimEnd. intros H.
  apply (f_equal (@rev N)) in H. rewrite rev_involutive, rev_unit in H.
  by apply trimStart_head in H.
Qed.

Lemma trimmed_last s s' c : trimmed s → s = s' ++ [c] → space c = false.
Proof.
  unfold trimmed, trim. intros H E. rewrite E in H at 2.
  by apply trimEnd_last in H.
Qed.

End Trim.

(** ** The white-space collapse *)

Section Collapse.

Implicit Types s t : jsstring.

(** A greedy repetition followed by a continuation that never fails
    takes the whole run. *)
Lemma rep_greedy_total {A} (p : N → bool) s (k : jsstring → A) :
  rep_greedy p 0 None s (λ s', Some (k s')) = Some (k (span p s).2).
Proof.
  induction s as [|c s IH]; simpl; [done |].
  destruct (p c); simpl; [|done].
  rewrite IH. by destruct (span p s).
Qed.

Lemma span_space_trimStart s : (span space s).2 = trimStart s.
Proof.
  induction s as [|c s IH]; simpl; [done |].
  destruct (space c); [|done]. destruct (span space s); done.
Qed.

(** [/\s+/] at the head of the input: the whole run of white space, or
    nothing. *)
Lemma match_at_spaces s :
  match_at (plus space) s =
    match s with
    | c :: s' => if space c then Some (trimStart s', ∅) else None
    | [] => None
    end.
Proof.
  unfold match_at, plus. simpl. destruct s as [|c s']; simpl; [done |].
  destruct (space c); simpl; [|done].
  rewrite (rep_greedy_total space s' (λ s', (s', (∅ : caps)))).
  by rewrite span_space_trimStart.
Qed.

Lemma replace_spaces_squeeze s :
  replace_go (plus space) [Text [ch " "]] 0 s = squeeze false s
  ∧ replace_go (plus space) [Text [ch " "]]
      (length s - length (trimStart s)) s = squeeze true s.
Proof.
  induction s as [|x s [IH0 IH1]].
  - cbn [replace_go length trimStart Nat.sub].
    rewrite match_at_spaces. done.
  - assert (H0 : replace_go (plus space) [Text [ch " "]] 0 (x :: s)
                 = squeeze false (x :: s)).
    { cbn [replace_go]. rewrite match_at_spaces.
      destruct (space x) eqn:Hx.
      - pose proof (trimStart_length s) as Hl.
        replace (length (x :: s) - length (trimStart s))
          with (S (length s - length (trimStart s))) by (simpl; lia).
        rewrite IH1. simpl. by rewrite Hx.
      - rewrite IH0. simpl. by rewrite Hx. }
    split; [exact H0 |].
    destruct (space x) eqn:Hx.
    + pose proof (trimStart_length s) as Hl.
      cbn [trimStart]. rewrite Hx.
      replace (length (x :: s) - length (trimStart s))
        with (S (length s - length (trimStart s))) by (simpl; lia).
      cbn [replace_go]. rewrite IH1. simpl. by rewrite Hx.
    + cbn [trimStart]. rewrite Hx. rewrite Nat.sub_diag. rewrite H0.
      simpl. by rewrite Hx.
Qed.

(** The collapse, without the pattern matcher. *)
Lemma collapse_squeeze s : collapse s = trim (squeeze false s).
Proof.
  unfold collapse, replace_all. by rewrite (proj1 (replace_spaces_squeeze s)).
Qed.

Lemma tidy_weaken b s : tidy b s = true → tidy false s = true.
Proof.
  destruct s as [|x s]; simpl; [done |]. destruct (space x); [|done].
  destruct b; simpl; done.
Qed.

Lemma squeeze_tidy b s : tidy b (squeeze b s) = true.
Proof.
  revert b. induction s as [|x s IH]; intros b; simpl; [done |].
  destruct (space x) eqn:Hx.
  - destruct b; [apply IH |]. simpl. rewrite IH. done.
  - simpl. rewrite Hx. apply IH.
Qed.

Lemma tidy_squeeze b s : tidy b s = true → squeeze b s = s.
Proof.
  revert b. induction s as [|x s IH]; intros b; simpl; [done |].
  destruct (space x) eqn:Hx.
  - destruct b; simpl; [done |]. intros H.
    apply andb_prop in H as [H1 H2]. apply N.eqb_eq in H1.
    rewrite (IH _ H2). by rewrite H1.
  - intros H. by rewrite (IH _ H).
Qed.

Lemma tidy_trimStart s : tidy false s = true → tidy false (trimStart s) = true.
Proof.
  induction s as [|x s IH]; simpl; [done |].
  destruct (space x) eqn:Hx.
  - simpl. intros H. apply andb_prop in H as [_ H].
    apply IH. by apply tidy_weaken in H.
  - intros H. simpl. by rewrite Hx.
Qed.

Lemma tidy_prefix b s t : tidy b (s ++ t) = true → tidy b s = true.
Proof.
  revert b. induction s as [|x s IH]; intros b; simpl; [done |].
  destruct (space x).
  - intros H. apply andb_prop in H as [H1 H2].
    rewrite H1. simpl. by apply IH.
  - apply IH.
Qed.

Lemma tidy_trim s : tidy false s = true → tidy false (trim s) = true.
Proof.
  intros H. unfold trim. apply tidy_trimStart in H.
  destruct (trimEnd_split (trimStart s)) as (w & Hw & _).
  rewrite Hw in H. by apply tidy_prefix in H.
Qed.

Lemma collapse_tidy s : tidy false (collapse s) = true.
Proof. rewrite collapse_squeeze. apply tidy_trim, squeeze_tidy. Qed.

(** Collapsing twice is collapsing once. *)
Lemma collapse_idem s : collapse (collapse s) = collapse s.
Proof.
  rewrite (collapse_squeeze (collapse s)).
  rewrite (tidy_squeeze _ _ (collapse_tidy s)).
  rewrite collapse_squeeze. apply trim_idem.
Qed.

End Collapse.

(** ** The words of a phrase *)

Section Words.

Implicit Types s t w cur : jsstring.

Lemma space_sp : space (ch " ") = true.
Proof. reflexivity. Qed.

Lemma words_go_spaces cur w :
  Forall (λ c, space c = true) w →
  words_go cur w = match cur with [] => [] | _ :: _ => [rev cur] end.
Proof.
  intros H. revert cur. induction H as [|x w Hx _ IH]; intros cur; [done |].
  cbn [words_go]. rewrite Hx, (IH []). by destruct cur.
Qed.

(** White space at the end adds no word. *)
Lemma words_go_app_spaces cur t w :
  Forall (λ c, space c = true) w → words_go cur (t ++ w) = words_go cur t.
Proof.
  intros H. revert cur. induction t as [|x t IH]; intros cur.
  - rewrite app_nil_l. by rewrite words_go_spaces.
  - cbn [app words_go]. destruct (space x); [| apply IH]. by rewrite (IH []).
Qed.

(** White space between words is skipped. *)
Lemma words_go_skip w t :
  Forall (λ c, space c = true) w → words_go [] (w ++ t) = words_go [] t.
Proof.
  induction 1 as [|x w Hx _ IH]; [done |]. cbn [app words_go]. by rewrite Hx.
Qed.

Lemma words_trimStart s : words_go [] (trimStart s) = words_go [] s.
Proof.
  destruct (trimStart_split s) as (w & Hw & Hall).
  rewrite Hw at 2. by rewrite words_go_skip.
Qed.

Lemma words_trimEnd cur s : words_go cur (trimEnd s) = words_go cur s.
Proof.
  destruct (trimEnd_split s) as (w & Hw & Hall).
  rewrite Hw at 2. by rewrite words_go_app_spaces.
Qed.

Lemma words_trim s : words (trim s) = words s.
Proof. unfold words, trim. by rewrite words_trimEnd, words_trimStart. Qed.

Lemma words_squeeze b cur s :
  (b = true → cur = []) → words_go cur (squeeze b s) = words_go cur s.
Proof.
  revert b cur. induction s as [|x s IH]; intros b cur Hb; [done |].
  cbn [squeeze words_go]. destruct (space x) eqn:Hx.
  - destruct b.
    + rewrite (Hb eq_refl). by apply IH.
    + cbn [words_go]. rewrite space_sp. by rewrite (IH true []).
  - cbn [words_go]. rewrite Hx. by apply IH.
Qed.

(** The collapse keeps the words. *)
Lemma words_collapse s : words (collapse s) = words s.
Proof.
  rewrite collapse_squeeze, words_trim. unfold words. by apply words_squeeze.
Qed.

Lemma collapse_trimmed s : trimmed (collapse s).
Proof. rewrite collapse_squeeze. apply trim_trimmed. Qed.

(** A tidy string without white space at its ends is its words, joined by
    single spaces. *)
Lemma join_words_go cur t :
  tidy false t = true →
  (∀ t' c, t = t' ++ [c] → space c = false) →
  (cur = [] → ∀ c t', t = c :: t' → space c = false) →
  join [ch " "] (words_go cur t) = rev cur ++ t.
Proof.
  revert cur. induction t as [|x t IH]; intros cur Ht Hlast Hhead.
  - cbn [words_go]. destruct cur; [done |]. cbn [join]. by rewrite app_nil_r.
  - cbn [words_go]. cbn [tidy] in Ht. destruct (space x) eqn:Hx.
    + cbn [negb andb] in Ht. apply andb_prop in Ht as [Hsp Ht].
      apply N.eqb_eq in Hsp. subst x.
      destruct cur as [|a cur]; [by rewrite (Hhead eq_refl _ _ eq_refl) in Hx |].
      destruct t as [|y t]; [by rewrite (Hlast [] _ eq_refl) in Hx |].
      assert (Hy : space y = false).
      { cbn [tidy] in Ht. by destruct (space y). }
      assert (E : join [ch " "] (words_go [] (y :: t)) = y :: t).
      { apply (IH []).
        - by apply tidy_weaken in Ht.
        - intros t' c E. apply (Hlast (ch " " :: t') c). by rewrite E.
        - intros _ c t' [= <- _]. exact Hy. }
      destruct (words_go [] (y :: t)) as [|l L] eqn:EL; [done |].
      cbn [join]. cbn [join] in E. rewrite E. reflexivity.
    + rewrite (IH (x :: cur)).
      * cbn [rev]. by rewrite <- app_assoc.
      * exact Ht.
      * intros t' c E. apply (Hlast (x :: t') c). by rewrite E.
      * done.
Qed.

(** The collapse of a phrase is its words, joined by single spaces. *)
Lemma collapse_words s : collapse s = join [ch " "] (words s).
Proof.
  rewrite <- (words_collapse s). unfold words.
  rewrite (join_words_go [] (collapse s)); [done | apply collapse_tidy | |].
  - intros t' c E. exact (trimmed_last _ _ _ (collapse_trimmed s) E).
  - intros _ c t' E. exact (trimmed_first _ _ _ (collapse_trimmed s) E).
Qed.

Lemma collapse_iff_words s t : collapse s = collapse t ↔ words s = words t.
Proof.
  split; intros E.
  - by rewrite <- (words_collapse s), <- (words_collapse t), E.
  - by rewrite !collapse_words, E.
Qed.

(** A run of white space counts as one space, wherever it stands. *)
Lemma words_go_run cur a w b :
  w ≠ [] → Forall (λ c, space c = true) w →
  words_go cur (a ++ w ++ b) = words_go cur (a ++ ch " " :: b).
Proof.
  intros Hne Hw. revert cur. induction a as [|x a IH]; intros cur.
  - rewrite !app_nil_l. destruct Hw as [|y w Hy Hw]; [done |].
    cbn [app words_go]. rewrite Hy, space_sp. by rewrite words_go_skip.
  - cbn [app words_go]. destruct (space x); [| apply IH]. by rewrite (IH []).
Qed.

Lemma collapse_run a w1 w2 b :
  w1 ≠ [] → w2 ≠ [] →
  Forall (λ c, space c = true) w1 → Forall (λ c, space c = true) w2 →
  collapse (a ++ w1 ++ b) = collapse (a ++ w2 ++ b).
Proof.
  intros H1 H2 F1 F2. apply collapse_iff_words. unfold words.
  by rewrite (words_go_run [] a w1 b), (words_go_run [] a w2 b).
Qed.

Lemma collapse_ends w1 a w2 :
  Forall (λ c, space c = true) w1 → Forall (λ c, space c = true) w2 →
  collapse (w1 ++ a ++ w2) = collapse a.
Proof.
  intros F1 F2. apply collapse_iff_words. unfold words.
  by rewrite words_go_skip, words_go_app_spaces.
Qed.

End Words.

(* ================================================================== *)
(** * The normalisation loop *)
(* ================================================================== *)

Section Normalize.

#[local] Set Warnings "-clear-no-such-hyp".

Implicit Types (acc l : list jsstring) (t loc : jsstring).

Lemma normalize_step_spec st loc :
  norm_inv st →
  norm_inv (normalize_step st loc)
  ∧ normalized (normalize_step st loc)
    = normalized st ++ norm_from (normalized st) [loc].
Proof.
  unfold norm_inv, normalize_step. intros Hinv. cbn [norm_from].
  unfold keepable.
  destruct (negb (truthy_str (collapse loc)) || (length (collapse loc) <? 3)).
  { simpl. by rewrite app_nil_r. }
  simpl. rewrite Hinv.
  destruct (decide (collapse loc ∈ normalized st)) as [Hin | Hin].
  - rewrite !bool_decide_eq_true_2; [| done | by apply elem_of_list_to_set].
    simpl. by rewrite app_nil_r.
  - rewrite !bool_decide_eq_false_2;
      [| done | by rewrite elem_of_list_to_set].
    simpl. split; [| done].
    rewrite list_to_set_app_L. simpl. set_solver.
Qed.

Lemma norm_from_cons acc loc l :
  norm_from acc (loc :: l)
  = norm_from acc [loc] ++ norm_from (acc ++ norm_from acc [loc]) l.
Proof.
  simpl. destruct (keepable (collapse loc) && _); simpl; [done |].
  by rewrite app_nil_r.
Qed.

Lemma foldl_normalize_step st l :
  norm_inv st →
  norm_inv (foldl normalize_step st l)
  ∧ normalized (foldl normalize_step st l)
    = normalized st ++ norm_from (normalized st) l.
Proof.
  revert st. induction l as [|loc l IH]; intros st Hinv.
  - simpl. by rewrite app_nil_r.
  - cbn [foldl]. destruct (normalize_step_spec st loc Hinv) as [H1 H2].
    destruct (IH _ H1) as [H3 H4]. split; [exact H3 |].
    rewrite (norm_from_cons (normalized st) loc l), H4, H2.
    symmetry. apply app_assoc.
Qed.

(** The loop computes [norm_from] from nothing kept. *)
Lemma normalize_norm_from l : normalize l = norm_from [] l.
Proof.
  unfold normalize.
  assert (Hinv : norm_inv {| seen := ∅; normalized := [] |}) by reflexivity.
  destruct (foldl_normalize_step _ l Hinv) as [_ H]. exact H.
Qed.

Lemma norm_from_ext acc acc' l :
  (∀ t, t ∈ acc ↔ t ∈ acc') → norm_from acc l = norm_from acc' l.
Proof.
  revert acc acc'. induction l as [|loc l IH]; intros acc acc' H; simpl; [done |].
  rewrite (bool_decide_ext _ _ (H (collapse loc))).
  destruct (keepable (collapse loc) && _).
  - f_equal. apply IH. intros t. rewrite !elem_of_app. by rewrite H.
  - by apply IH.
Qed.

Lemma norm_from_app acc l1 l2 :
  norm_from acc (l1 ++ l2)
  = norm_from acc l1 ++ norm_from (acc ++ norm_from acc l1) l2.
Proof.
  revert acc. induction l1 as [|loc l1 IH]; intros acc; simpl.
  - by rewrite app_nil_r.
  - destruct (keepable (collapse loc) && _); [| apply IH].
    simpl. rewrite IH. by rewrite <- app_assoc.
Qed.

Lemma norm_from_filter a b l :
  norm_from (a ++ b) l = filter (λ t, t ∉ a) (norm_from b l).
Proof.
  revert b. induction l as [|loc l IH]; intros b; simpl; [done |].
  destruct (keepable (collapse loc)); simpl; [| apply IH].
  destruct (decide (collapse loc ∈ b)) as [Hb | Hb].
  - rewrite !bool_decide_eq_true_2; [| done | set_solver]. simpl. apply IH.
  - rewrite (bool_decide_eq_false_2 (collapse loc ∈ b)); [| done]. simpl.
    destruct (decide (collapse loc ∈ a)) as [Ha | Ha].
    + rewrite bool_decide_eq_true_2; [| set_solver]. simpl.
      rewrite filter_cons_False; [| by intros H; apply H].
      rewrite <- IH. apply norm_from_ext. set_solver.
    + rewrite bool_decide_eq_false_2; [| set_solver]. simpl.
      rewrite filter_cons_True; [| done].
      f_equal. rewrite <- IH. by rewrite app_assoc.
Qed.

Lemma elem_of_norm_from acc l t :
  t ∈ norm_from acc l
  ↔ keepable t = true ∧ (t ∉ acc) ∧ (∃ loc, loc ∈ l ∧ collapse loc = t).
Proof.
  revert acc. induction l as [|loc l IH]; intros acc; simpl.
  - split; intros H.
    + by apply elem_of_nil in H.
    + destruct H as (_ & _ & loc & H & _). by apply elem_of_nil in H.
  - assert (Hrest : ∀ acc',
      keepable t = true ∧ (t ∉ acc') ∧ (∃ loc0, loc0 ∈ l ∧ collapse loc0 = t)
      → keepable t = true ∧ (t ∉ acc')
        ∧ (∃ loc0, loc0 ∈ loc :: l ∧ collapse loc0 = t)).
    { intros acc' (Hk & Hn & loc0 & Hl & Hc).
      split; [exact Hk |]. split; [exact Hn |].
      exists loc0. split; [by right | exact Hc]. }
    destruct (keepable (collapse loc)) eqn:Hk; simpl.
    + destruct (decide (collapse loc ∈ acc)) as [Hin | Hin].
      * rewrite bool_decide_eq_true_2; [| done]. simpl. rewrite IH.
        split; [apply Hrest |].
        intros (Hk' & Hn & loc0 & Hl & Hc).
        apply elem_of_cons in Hl as [-> | Hl]; [congruence |].
        split; [exact Hk' |]. split; [exact Hn |]. by exists loc0.
      * rewrite bool_decide_eq_false_2; [| done]. simpl.
        rewrite elem_of_cons, IH. split.
        -- intros [-> | H].
           ++ split; [exact Hk |]. split; [exact Hin |].
              exists loc. split; [by left | done].
           ++ apply Hrest. destruct H as (Hk' & Hn & Hex).
              split; [exact Hk' |]. split; [| exact Hex].
              intros Ht. apply Hn. apply elem_of_app. by left.
        -- intros (Hk' & Hn & loc0 & Hl & Hc).
           destruct (decide (t = collapse loc)) as [E | E]; [by left | right].
           apply elem_of_cons in Hl as [-> | Hl]; [congruence |].
           split; [exact Hk' |]. split; [| by exists loc0].
           intros [Ht | Ht%list_elem_of_singleton]%elem_of_app; done.
    + rewrite IH. split; [apply Hrest |].
      intros (Hk' & Hn & loc0 & Hl & Hc).
      apply elem_of_cons in Hl as [-> | Hl]; [congruence |].
      split; [exact Hk' |]. split; [exact Hn |]. by exists loc0.
Qed.

Lemma NoDup_norm_from acc l : NoDup (norm_from acc l).
Proof.
  revert acc. induction l as [|loc l IH]; intros acc; simpl; [constructor |].
  destruct (keepable (collapse loc) && _); [| apply IH].
  constructor; [| apply IH].
  rewrite elem_of_norm_from. intros (_ & Hn & _). set_solver.
Qed.

(** A list of distinct phrases that are already collapsed, long enough
    and new goes through the loop unchanged. *)
Lemma norm_from_fixed acc l :
  NoDup l →
  (∀ t, t ∈ l → collapse t = t ∧ keepable t = true ∧ t ∉ acc) →
  norm_from acc l = l.
Proof.
  revert acc. induction l as [|t l IH]; intros acc Hnd H; simpl; [done |].
  apply NoDup_cons in Hnd as [Hnin Hnd].
  destruct (H t) as (Hc & Hk & Ha); [by left |].
  rewrite Hc, Hk. rewrite bool_decide_eq_false_2; [| done]. simpl.
  f_equal. apply IH; [done |]. intros u Hu.
  destruct (H u) as (? & ? & ?); [by right |].
  repeat split; [done.. |]. rewrite elem_of_app, list_elem_of_singleton.
  intros [? | ->]; done.
Qed.

Lemma NoDup_normalize l : NoDup (normalize l).
Proof. rewrite normalize_norm_from. apply NoDup_norm_from. Qed.

Lemma elem_of_normalize l t :
  t ∈ normalize l ↔ keepable t = true ∧ ∃ loc, loc ∈ l ∧ collapse loc = t.
Proof.
  rewrite normalize_norm_from, elem_of_norm_from. split.
  - intros (? & _ & ?). done.
  - intros (? & ?). repeat split; [done | by intros ?%elem_of_nil | done].
Qed.

(** First-seen order: what a later list adds comes after, and only what
    is new. *)
Lemma normalize_app l1 l2 :
  normalize (l1 ++ l2)
  = normalize l1 ++ filter (λ t, t ∉ normalize l1) (normalize l2).
Proof.
  rewrite !normalize_norm_from, norm_from_app. f_equal.
  rewrite <- norm_from_filter. simpl. by rewrite app_nil_r.
Qed.

Lemma normalize_fixed l :
  NoDup l → (∀ t, t ∈ l → collapse t = t ∧ keepable t = true) →
  normalize l = l.
Proof.
  intros Hnd H. rewrite normalize_norm_from. apply norm_from_fixed; [done |].
  intros t Ht. destruct (H t Ht). repeat split; [done.. |].
  by intros ?%elem_of_nil.
Qed.

Lemma normalize_fixes_prefix l l' :
  l' `prefix_of` normalize l → normalize l' = l'.
Proof.
  intros [k Hk]. apply normalize_fixed.
  - pose proof (NoDup_normalize l) as H. rewrite Hk in H.
    by apply NoDup_app in H as [? _].
  - intros t Ht. assert (Hin : t ∈ normalize l) by (rewrite Hk; set_solver).
    apply elem_of_normalize in Hin as (Hkeep & loc & _ & <-).
    split; [apply collapse_idem | done].
Qed.

Lemma keepable_length t : keepable t = true ↔ 3 ≤ length t.
Proof.
  unfold keepable. destruct t as [|a [|b [|c t]]]; simpl; split; try done; try lia.
Qed.

End Normalize.

(* ================================================================== *)
(** * The claims about normalisation and deduplication *)
(* ================================================================== *)

(** C9. The normalisation loop (white-space collapse, trim, minimum
    length, first-occurrence deduplication) is idempotent: run on its own
    output taken as the candidate list, it returns that output; so does
    the capped list the records are made from. *)
Theorem C9_normalize_idempotent (locations : list jsstring) :
  normalize (normalize locations) = normalize locations
  ∧ normalize (slice0 200 (normalize locations))
    = slice0 200 (normalize locations).
Proof.
  split; apply (normalize_fixes_prefix locations).
  - done.
  - apply prefix_take.
Qed.

Lemma location_text_records page (l : list jsstring) :
  map location_text (map (make_record page) l) = l.
Proof.
  induction l as [|t l IH]; [done |]. cbn [map]. rewrite IH. reflexivity.
Qed.

Lemma page_records_texts input page :
  map location_text (page_records input page)
  = take 200 (normalize (collect_locations input page)).
Proof. unfold page_records, slice0. apply location_text_records. Qed.

Lemma collapse_normalized locations t :
  t ∈ normalize locations → collapse t = t.
Proof.
  intros (_ & loc & _ & <-)%elem_of_normalize. apply collapse_idem.
Qed.

Lemma NoDup_take {A} (l : list A) n : NoDup l → NoDup (take n l).
Proof.
  intros H. rewrite <- (take_drop n l) in H. by apply NoDup_app in H as [? _].
Qed.

Lemma elem_of_take_elem {A} (l : list A) n x : x ∈ take n l → x ∈ l.
Proof.
  intros H. rewrite <- (take_drop n l). apply elem_of_app. by left.
Qed.

(** C2, as stated, fails: two list items that differ only in letter case
    both become records, and their texts coincide under the
    case-insensitive key. *)
Lemma C2_counterexample_case :
  let records :=
    page_records default_input
      (listing_page [js "Paris, France"; js "paris, france"]) in
  map location_text records = [js "Paris, France"; js "paris, france"]
  ∧ ¬ NoDup (map ci_key (map location_text records)).
Proof.
  split; [by vm_compute |].
  assert (E : map ci_key (map location_text (page_records default_input
                (listing_page [js "Paris, France"; js "paris, france"])))
              = [js "paris, france"; js "paris, france"]) by (by vm_compute).
  rewrite E. intros H. apply NoDup_cons in H as [H _]. apply H. by left.
Qed.

(** C2, amended. The texts of the records of one page run are the first
    200 entries of the normalised list; they are pairwise distinct as
    strings and each is its own white-space collapse, trimmed and with no
    white space but single spaces between words, so they stay distinct
    under the collapse (the comparison is case-sensitive). The collapse of
    a phrase is its words joined by single spaces: two phrases have the
    same collapse exactly when they have the same words, a run of white
    space inside a phrase counts as any other run and white space at the
    ends counts for nothing. Every candidate whose collapse has at least 3
    units is represented in the normalised list by that collapse, at one
    index only, and so is any candidate with the same words; a later list
    of candidates only adds what the earlier ones did not give (first
    occurrence wins). *)
Theorem C2_dedup_whitespace (input : Input) (page : Page) :
  let texts := map location_text (page_records input page) in
  texts = take 200 (normalize (collect_locations input page))
  ∧ NoDup (map collapse texts)
  ∧ (∀ (locations : list jsstring) (p : jsstring),
       p ∈ locations → 3 ≤ length (collapse p) →
       collapse p ∈ normalize locations ∧ NoDup (normalize locations))
  ∧ (∀ l1 l2 : list jsstring,
       normalize (l1 ++ l2)
       = normalize l1 ++ filter (λ t, t ∉ normalize l1) (normalize l2))
  ∧ (∀ t : jsstring,
       t ∈ texts → collapse t = t ∧ trimmed t ∧ tidy false t = true)
  ∧ (∀ p : jsstring, collapse p = join [ch " "] (words p))
  ∧ (∀ p q : jsstring, collapse p = collapse q ↔ words p = words q)
  ∧ (∀ a b w1 w2 : jsstring,
       w1 ≠ [] → w2 ≠ [] →
       Forall (λ c, space c = true) w1 → Forall (λ c, space c = true) w2 →
       collapse (a ++ w1 ++ b) = collapse (a ++ w2 ++ b))
  ∧ (∀ a w1 w2 : jsstring,
       Forall (λ c, space c = true) w1 → Forall (λ c, space c = true) w2 →
       collapse (w1 ++ a ++ w2) = collapse a)
  ∧ (∀ (locations : list jsstring) (p q : jsstring),
       p ∈ locations → q ∈ locations → words p = words q →
       3 ≤ length (collapse p) →
       collapse q = collapse p
       ∧ ∃ i : nat,
           normalize locations !! i = Some (collapse p)
           ∧ ∀ j : nat,
               (normalize locations !! j = Some (collapse p)
                ∨ normalize locations !! j = Some (collapse q)) → j = i).
Proof.
  cbn zeta. rewrite page_records_texts.
  assert (Hin : ∀ (locations : list jsstring) (p : jsstring),
            p ∈ locations → 3 ≤ length (collapse p) →
            collapse p ∈ normalize locations).
  { intros locations p Hp Hlen.
    apply elem_of_normalize. split; [by apply keepable_length | eauto]. }
  split; [done |]. repeat apply conj.
  - rewrite (map_ext_in collapse id), map_id.
    + apply NoDup_take, NoDup_normalize.
    + intros t Ht%list_elem_of_In%elem_of_take_elem.
      by apply collapse_normalized in Ht.
  - intros locations p Hp Hlen. split; [by apply Hin | apply NoDup_normalize].
  - apply normalize_app.
  - intros t Ht%elem_of_take_elem.
    apply collapse_normalized in Ht. rewrite <- Ht.
    split; [apply collapse_idem |].
    split; [apply collapse_trimmed | apply collapse_tidy].
  - apply collapse_words.
  - apply collapse_iff_words.
  - intros a b w1 w2. apply collapse_run.
  - intros a w1 w2. apply collapse_ends.
  - intros locations p q Hp Hq Hw Hlen.
    assert (E : collapse q = collapse p) by (by apply collapse_iff_words).
    split; [exact E |].
    destruct (proj1 (list_elem_of_lookup _ _) (Hin locations p Hp Hlen)) as [i Hi].
    exists i. split; [exact Hi |].
    intros j Hj. rewrite E in Hj.
    assert (Hj' : normalize locations !! j = Some (collapse p)) by (by destruct Hj).
    exact (NoDup_lookup _ _ _ _ (NoDup_normalize locations) Hj' Hi).
Qed.

Lemma C2_dedup_whitespace_witness :
  let items := [js "Paris, France"; js "Paris,  France";
                js " Paris," ++ 9%N :: js "France "] in
  map location_text (page_records default_input (listing_page items))
  = [js "Paris, France"]
  ∧ collapse (js "Paris,  France") ∈ normalize items
  ∧ NoDup (normalize items)
  ∧ collapse (js "Paris, France") = js "Paris, France"
  ∧ collapse (js "Paris,  France") = collapse (js "Paris, France")
  ∧ ∃ i : nat,
      normalize items !! i = Some (collapse (js "Paris, France"))
      ∧ ∀ j : nat,
          (normalize items !! j = Some (collapse (js "Paris, France"))
           ∨ normalize items !! j = Some (collapse (js "Paris,  France"))) →
          j = i.
Proof.
  cbn zeta.
  pose proof (C2_dedup_whitespace default_input
                (listing_page [js "Paris, France"; js "Paris,  France";
                               js " Paris," ++ 9%N :: js "France "]))
    as (_ & _ & Hin & _ & Htexts & _ & _ & _ & _ & Hone).
  split; [by vm_compute |].
  split; [| split].
  - apply Hin.
    + apply elem_of_cons. right. apply elem_of_cons. by left.
    + vm_compute. lia.
  - apply (Hin _ (js "Paris,  France")).
    + apply elem_of_cons. right. apply elem_of_cons. by left.
    + vm_compute. lia.
  - split.
    + apply Htexts. cbn zeta. vm_compute. apply elem_of_cons. by left.
    + apply (Hone _ (js "Paris, France") (js "Paris,  France")).
      * apply elem_of_cons. by left.
      * apply elem_of_cons. right. apply elem_of_cons. by left.
      * by vm_compute.
      * vm_compute. lia.
Defined.

(* ================================================================== *)
(** * The order of the strategies *)
(* ================================================================== *)

(** C6. The paragraph scan contributes only when the heading and the
    layout strategies gave nothing; the markup lines, when the markup path
    is enabled for the page and gives any, stand before all the others in
    the candidate list; so the records come in the order: markup-derived
    phrases, then the other phrases not seen before, each in first-seen
    order. *)
Theorem C6_strategy_order (input : Input) (page : Page) :
  let heading := heading_locations page in
  let layout := layout_locations page heading in
  let scan :=
    filter (λ p, test fallback_re p = true) (map trim (p_paragraphs page)) in
  let others :=
    heading ++ layout ++ (if bool_decide (heading ++ layout = []) then scan else []) in
  let wiki :=
    if useWikipediaApi input && includes (p_url page) (js "wikipedia.org")
    then findFilmingLocationsFromWikiWikitext (p_wikitext page)
    else [] in
  collect_locations input page = wiki ++ others
  ∧ map location_text (page_records input page)
    = take 200 (normalize wiki
                ++ filter (λ t, t ∉ normalize wiki) (normalize others)).
Proof.
  cbn zeta.
  assert (Hc : collect_locations input page
    = (if useWikipediaApi input && includes (p_url page) (js "wikipedia.org")
       then findFilmingLocationsFromWikiWikitext (p_wikitext page) else [])
      ++ heading_locations page
      ++ layout_locations page (heading_locations page)
      ++ (if bool_decide (heading_locations page
                          ++ layout_locations page (heading_locations page) = [])
          then filter (λ p, test fallback_re p = true) (map trim (p_paragraphs page))
          else [])).
  { unfold collect_locations, wiki_locations, dom_locations, fallback_locations.
    set (l12 := heading_locations page
                ++ layout_locations page (heading_locations page)).
    assert (Hw : match p_wikitext page with
                 | Some ((_ :: _) as w) => findFilmingLocationsFromWikiWikitext (Some w)
                 | _ => []
                 end = findFilmingLocationsFromWikiWikitext (p_wikitext page)).
    { by destruct (p_wikitext page) as [[|? ?]|]. }
    assert (Hl : (if length l12 =? 0
                  then filter (λ p, test fallback_re p = true)
                         (map trim (p_paragraphs page)) else [])
                 = (if bool_decide (l12 = [])
                    then filter (λ p, test fallback_re p = true)
                           (map trim (p_paragraphs page)) else [])).
    { by destruct l12. }
    rewrite Hl. subst l12. rewrite <- (app_assoc (heading_locations page)).
    destruct (useWikipediaApi input && includes (p_url page) (js "wikipedia.org")).
    - rewrite Hw. by destruct (findFilmingLocationsFromWikiWikitext (p_wikitext page)).
    - done. }
  split; [exact Hc |].
  rewrite page_records_texts, Hc. by rewrite normalize_app.
Qed.

(* ================================================================== *)
(** * The markup section extractor *)
(* ================================================================== *)

Lemma lines_of_spec (cleaned l : jsstring) :
  l ∈ lines_of cleaned → trimmed l ∧ l ≠ [].
Proof.
  unfold lines_of. intros [Hne Hin]%list_elem_of_filter.
  apply list_elem_of_In, in_map_iff in Hin as (x & <- & _). split.
  - apply trim_trimmed.
  - intros E. by rewrite E in Hne.
Qed.

Lemma plausible_line_spec (l : jsstring) :
  plausible_line l = true ↔ 5 < length l < 400.
Proof.
  unfold plausible_line. rewrite andb_true_iff, !Nat.ltb_lt. done.
Qed.

(** C8. Every line the markup extractor returns is trimmed, non-empty and
    between 5 and 400 units long (more precisely: more than 5 and fewer
    than 400), there are at most 200 of them, and they are the plausible
    lines of the cleaned section; without a matching section, or without
    input, the result is empty. *)
Theorem C8_markup_lines :
  (∀ (wikitext : option jsstring) (l : jsstring),
     l ∈ findFilmingLocationsFromWikiWikitext wikitext →
     trimmed l ∧ l ≠ [] ∧ 5 < length l < 400 ∧ 5 ≤ length l ≤ 400)
  ∧ (∀ wikitext : option jsstring,
       length (findFilmingLocationsFromWikiWikitext wikitext) ≤ 200)
  ∧ (∀ (w : jsstring) (m : MatchResult),
       str_match section_re w = Some m →
       findFilmingLocationsFromWikiWikitext (Some w)
       = take 200 (filter (λ l, plausible_line l = true)
                          (lines_of (clean_markup (m_whole m)))))
  ∧ findFilmingLocationsFromWikiWikitext None = []
  ∧ findFilmingLocationsFromWikiWikitext (Some []) = []
  ∧ (∀ w : jsstring,
       str_match section_re w = None →
       findFilmingLocationsFromWikiWikitext (Some w) = []).
Proof.
  assert (Hsome : ∀ (w : jsstring) (m : MatchResult),
       str_match section_re w = Some m →
       findFilmingLocationsFromWikiWikitext (Some w)
       = take 200 (filter (λ l, plausible_line l = true)
                          (lines_of (clean_markup (m_whole m))))).
  { intros [|c w] m Hm.
    - by vm_compute in Hm.
    - unfold findFilmingLocationsFromWikiWikitext. by rewrite Hm. }
  assert (Hnone : ∀ w : jsstring,
       str_match section_re w = None →
       findFilmingLocationsFromWikiWikitext (Some w) = []).
  { intros [|c w] Hm; [done |].
    unfold findFilmingLocationsFromWikiWikitext. by rewrite Hm. }
  split; [| split; [| split; [exact Hsome | split; [done | split; [done | exact Hnone]]]]].
  - intros [w|] l Hin; [| by apply elem_of_nil in Hin].
    destruct (str_match section_re w) as [m|] eqn:Hm.
    + rewrite (Hsome w m Hm) in Hin.
      apply elem_of_take_elem, list_elem_of_filter in Hin as [Hp Hin].
      apply plausible_line_spec in Hp. apply lines_of_spec in Hin as [? ?].
      repeat split; [done | done | lia..].
    + rewrite (Hnone w Hm) in Hin. by apply elem_of_nil in Hin.
  - intros [w|]; [| simpl; lia].
    destruct (str_match section_re w) as [m|] eqn:Hm.
    + rewrite (Hsome w m Hm), length_take. lia.
    + rewrite (Hnone w Hm). simpl. lia.
Qed.

Lemma C8_markup_lines_witness :
  (trimmed (js "London bridge") ∧ js "London bridge" ≠ []
   ∧ 5 < length (js "London bridge") < 400
   ∧ 5 ≤ length (js "London bridge") ≤ 400)
  ∧ findFilmingLocationsFromWikiWikitext (Some wiki_sample)
    = [js "== Filming locations =="; js "* Paris, France"; js "London bridge"]
  ∧ findFilmingLocationsFromWikiWikitext (Some (js "== Plot ==")) = [].
Proof.
  split; [| split].
  - apply (proj1 C8_markup_lines (Some wiki_sample)).
    vm_compute. apply elem_of_cons. right. apply elem_of_cons. right.
    apply elem_of_cons. by left.
  - by vm_compute.
  - apply (proj2 (proj2 (proj2 (proj2 (proj2 C8_markup_lines))))).
    by vm_compute.
Defined.

(* ================================================================== *)
(** * The records *)
(* ================================================================== *)

Lemma split_on_no_sep (sep : N) (cur s : jsstring) :
  sep ∉ s → split_on sep cur s = [rev cur ++ s].
Proof.
  revert cur. induction s as [|c s IH]; intros cur Hn; simpl.
  - by rewrite app_nil_r.
  - destruct (N.eqb_spec c sep) as [-> | Hne].
    + exfalso. apply Hn. by left.
    + rewrite IH.
      * simpl. by rewrite <- app_assoc.
      * intros H. apply Hn. by right.
Qed.

(** A normalised phrase without a comma is its own single segment. *)
Lemma comma_parts_whole (locations : list jsstring) (t : jsstring) :
  t ∈ normalize locations → ch "," ∉ t → comma_parts t = [t].
Proof.
  intros Ht Hn. unfold comma_parts, split.
  rewrite split_on_no_sep by done. simpl.
  apply elem_of_normalize in Ht as (Hk & loc & _ & <-).
  assert (Htrim : trim (collapse loc) = collapse loc) by apply trim_idem.
  rewrite Htrim. apply keepable_length in Hk.
  destruct (collapse loc) as [|c u]; [simpl in Hk; lia |].
  by rewrite filter_cons_True.
Qed.

(** C5, as stated, fails on a phrase with an empty segment: the plain
    comma-split of [, Paris] has two segments, the empty one and [Paris],
    which would make the city empty and the country [Paris]; the code
    drops empty segments, is left with one, and makes [Paris] the city,
    which is not the whole phrase either. *)
Lemma C5_counterexample_empty_segment :
  let r := make_record (listing_page []) (js ", Paris") in
  (city r, region r, country r) = (js "Paris", [], [])
  ∧ spec_fields (js ", Paris") = ([], [], js "Paris")
  ∧ (city r, region r, country r) ≠ spec_fields (js ", Paris")
  ∧ city r ≠ js ", Paris".
Proof.
  cbn zeta.
  assert (Ec : city (make_record (listing_page []) (js ", Paris")) = js "Paris")
    by (by vm_compute).
  assert (Er : region (make_record (listing_page []) (js ", Paris")) = [])
    by (by vm_compute).
  assert (Eo : country (make_record (listing_page []) (js ", Paris")) = [])
    by (by vm_compute).
  assert (Es : spec_fields (js ", Paris") = ([], [], js "Paris"))
    by (by vm_compute).
  rewrite Ec, Er, Eo, Es. split; [done |]. split; [done |].
  split; vm_compute; discriminate.
Qed.

(** C5, amended. The city, region and country of a record follow the
    number of comma-separated segments of the phrase, each trimmed and the
    empty ones dropped: one segment is the city; two are city and country;
    with three or more the first is the city, the second the region and
    the others, joined by a comma and a space, the country. A normalised
    phrase without a comma is its one segment, so the whole phrase is the
    city. The Golden Gate phrase gives the record of the scenario. *)
Theorem C5_structural_fields :
  (∀ (page : Page) (locText : jsstring),
     let r := make_record page locText in
     (city r, region r, country r)
     = match comma_parts locText with
       | [] => ([], [], [])
       | [a] => (a, [], [])
       | [a; b] => (a, [], b)
       | a :: b :: rest => (a, b, join (js ", ") rest)
       end)
  ∧ (∀ (page : Page) (locations : list jsstring) (t : jsstring),
       t ∈ normalize locations → ch "," ∉ t →
       city (make_record page t) = t
       ∧ region (make_record page t) = []
       ∧ country (make_record page t) = [])
  ∧ (∀ page : Page,
       let r := make_record page
         (js "Golden Gate Bridge, San Francisco, 37.8199, -122.4783") in
       city r = js "Golden Gate Bridge"
       ∧ region r = js "San Francisco"
       ∧ country r = js "37.8199, -122.4783"
       ∧ rec_latitude r = Some (Num (378199 # 10000))
       ∧ rec_longitude r = Some (Num (- 1224783 # 10000))).
Proof.
  split; [| split].
  - intros page locText. cbn zeta. unfold make_record. cbn [city region country].
    by destruct (comma_parts locText) as [|a [|b [|c rest]]].
  - intros page locations t Ht Hn. unfold make_record. cbn [city region country].
    by rewrite (comma_parts_whole locations t Ht Hn).
  - intros page. by vm_compute.
Qed.

Lemma C5_structural_fields_witness :
  city (make_record (listing_page []) (js "Monument Valley")) = js "Monument Valley"
  ∧ region (make_record (listing_page []) (js "Monument Valley")) = []
  ∧ country (make_record (listing_page []) (js "Monument Valley")) = [].
Proof.
  apply (proj1 (proj2 C5_structural_fields) (listing_page [])
           [js "  Monument   Valley "]).
  - vm_compute. by left.
  - vm_compute. intros H. repeat (apply elem_of_cons in H as [H | H]; [discriminate H |]).
    by apply elem_of_nil in H.
Defined.

(** C1 at a phrase whose parsed latitude is 0: the parser returns both
    coordinates, and the record keeps the longitude alone. *)
Theorem C1_zero_latitude_dropped :
  tryParseCoordinates (js "Gulf of Guinea 0.0, 9.5")
  = Some {| latitude := Num (0 # 10); longitude := Num (95 # 10) |}
  ∧ map (λ r, (rec_latitude r, rec_longitude r))
        (page_records default_input (listing_page [js "Gulf of Guinea 0.0, 9.5"]))
    = [(None, Some (Num (95 # 10)))].
Proof. split; by vm_compute. Qed.

(** C3: whatever the [validateCoordinates] flag says, the records are the
    same, and with the flag set a latitude of 123.5 is returned and
    recorded. *)
Theorem C3_validate_flag_unused :
  (∀ (input : Input) (b : bool) (page : Page),
     page_records
       {| startUrls := startUrls input;
          maxRequestsPerCrawl := maxRequestsPerCrawl input;
          useBrowser := useBrowser input;
          useWikipediaApi := useWikipediaApi input;
          followInternalOnly := followInternalOnly input;
          concurrency := concurrency input;
          validateCoordinates := b |} page
     = page_records input page)
  ∧ tryParseCoordinates (js "Studio lot 123.5, 10.5")
    = Some {| latitude := Num (1235 # 10); longitude := Num (105 # 10) |}
  ∧ map (λ r, (rec_latitude r, rec_longitude r))
        (page_records
           {| startUrls := []; maxRequestsPerCrawl := 500; useBrowser := false;
              useWikipediaApi := true; followInternalOnly := true;
              concurrency := 10; validateCoordinates := true |}
           (listing_page [js "Studio lot 123.5, 10.5"]))
    = [(Some (Num (1235 # 10)), Some (Num (105 # 10)))].
Proof.
  split; [| split].
  - intros input b page. reflexivity.
  - by vm_compute.
  - by vm_compute.
Qed.

(** C4: a piped link is rewritten to the display text followed by the
    target; a link without a pipe to its target. *)
Theorem C4_piped_link_keeps_target :
  clean_markup (js "[[Paris|City of Light]]") = js "City of LightParis"
  ∧ clean_markup (js "[[London]]") = js "London"
  ∧ findFilmingLocationsFromWikiWikitext
      (Some (js "== Filming locations ==" ++ [10%N]
             ++ js "[[Paris|City of Light]] streets" ++ [10%N]
             ++ js "== Cast =="))
    = [js "== Filming locations =="; js "City of LightParis streets"].
Proof. repeat split; by vm_compute. Qed.

(* ================================================================== *)
(** * The matcher answers with matches *)
(* ================================================================== *)

Section Soundness.

Context {A : Type}.
Implicit Types (s w : jsstring) (c : caps) (x : A).

Lemma within_less hi n : may_take hi = true → within (less hi) n → within hi (S n).
Proof.
  destruct hi as [[|h]|]; simpl; [done | lia | done].
Qed.

Lemma within_0 hi : within hi 0.
Proof. destruct hi; simpl; [lia | done]. Qed.

Lemma rep_greedy_sound p lo hi s (k : jsstring → option A) x :
  rep_greedy p lo hi s k = Some x →
  ∃ w s', s = w ++ s' ∧ Forall (λ a, p a = true) w
          ∧ lo ≤ length w ∧ within hi (length w) ∧ k s' = Some x.
Proof.
  assert (Hstop : ∀ lo s, match lo with 0 => k s | S _ => None end = Some x →
    ∃ w s', s = w ++ s' ∧ Forall (λ a, p a = true) w
            ∧ lo ≤ length w ∧ within hi (length w) ∧ k s' = Some x).
  { intros [|lo'] s0 H; [| done]. exists [], s0.
    repeat split; [constructor | done | apply within_0 | done]. }
  revert lo hi Hstop. induction s as [|a s IH]; intros lo hi Hstop; simpl.
  - apply Hstop.
  - destruct (p a && may_take hi) eqn:Hpa; [| apply Hstop].
    apply andb_prop in Hpa as [Hp Hm].
    destruct (rep_greedy p (pred lo) (less hi) s k) as [y|] eqn:Hrec;
      [| apply Hstop].
    intros [= ->].
    apply IH in Hrec as (w & s' & -> & Hall & Hlo & Hhi & Hk).
    + exists (a :: w), s'. repeat split; [by constructor | simpl; lia | | done].
      by apply within_less.
    + intros [|lo'] s0 H; [| done]. exists [], s0.
      repeat split; [constructor | done | apply within_0 | done].
Qed.

Lemma rep_lazy_sound p lo hi s (k : jsstring → option A) x :
  rep_lazy p lo hi s k = Some x →
  ∃ w s', s = w ++ s' ∧ Forall (λ a, p a = true) w
          ∧ lo ≤ length w ∧ within hi (length w) ∧ k s' = Some x.
Proof.
  revert lo hi. induction s as [|a s IH]; intros lo hi.
  - simpl. destruct lo as [|lo']; [| done].
    destruct (k []) as [y|] eqn:Hk; [| done]. intros [= ->].
    exists [], []. repeat split; [constructor | done | apply within_0 | done].
  - cbn [rep_lazy].
    assert (Hmore : (if p a && may_take hi
                     then rep_lazy p (pred lo) (less hi) s k else None) = Some x →
      ∃ w s', a :: s = w ++ s' ∧ Forall (λ a, p a = true) w
              ∧ lo ≤ length w ∧ within hi (length w) ∧ k s' = Some x).
    { destruct (p a && may_take hi) eqn:Hpa; [| done].
      apply andb_prop in Hpa as [Hp Hm].
      intros (w & s' & -> & Hall & Hlo & Hhi & Hk)%IH.
      exists (a :: w), s'. repeat split; [by constructor | simpl; lia | | done].
      by apply within_less. }
    destruct lo as [|lo']; [| apply Hmore].
    destruct (k (a :: s)) as [y|] eqn:Hk; [| apply Hmore].
    intros [= ->]. exists [], (a :: s).
    repeat split; [constructor | done | apply within_0 | done].
Qed.

End Soundness.

Lemma matches_suffix r s c s' c' : matches r s c s' c' → ∃ w, s = w ++ s'.
Proof.
  revert s c s' c'. induction r as [| p | r1 IH1 r2 IH2 | r1 IH1 r2 IH2
                                    | g lo hi p | r1 IH1 | i r1 IH1 | r1 IH1];
    intros s c s' c'; simpl.
  - intros [-> _]. by exists [].
  - intros (x & -> & _). by exists [x].
  - intros (s1 & c1 & (w1 & ->)%IH1 & (w2 & ->)%IH2).
    exists (w1 ++ w2). by rewrite <- app_assoc.
  - intros [H | H]; [by apply IH1 in H | by apply IH2 in H].
  - intros (w & -> & _). by exists w.
  - intros [[-> _] | H]; [by exists [] | by apply IH1 in H].
  - intros (w & c1 & _ & -> & _). by exists w.
  - intros [-> _]. by exists [].
Qed.

Lemma consumed_app (w s' : jsstring) : consumed (w ++ s') s' = w.
Proof.
  unfold consumed. rewrite length_app.
  replace (length w + length s' - length s') with (length w) by lia.
  by rewrite take_app_length.
Qed.

(** Whatever the matcher hands to its continuation is a match. *)
Lemma rmatch_sound {A} r s c (k : jsstring → caps → option A) x :
  rmatch r s c k = Some x →
  ∃ s' c', matches r s c s' c' ∧ k s' c' = Some x.
Proof.
  revert A s c k x.
  induction r as [| p | r1 IH1 r2 IH2 | r1 IH1 r2 IH2
                  | g lo hi p | r1 IH1 | i r1 IH1 | r1 IH1];
    intros A s c k x; simpl.
  - intros H. by exists s, c.
  - destruct s as [|a s']; [done |]. destruct (p a) eqn:Hp; [| done].
    intros H. exists s', c. split; [by exists a | done].
  - intros (s1 & c1 & H1 & (s2 & c2 & H2 & Hk)%IH2)%IH1.
    exists s2, c2. split; [by exists s1, c1 | done].
  - destruct (rmatch r1 s c k) as [y|] eqn:H1.
    + intros [= ->]. apply IH1 in H1 as (s' & c' & ? & ?).
      exists s', c'. split; [by left | done].
    + intros (s' & c' & ? & ?)%IH2. exists s', c'. split; [by right | done].
  - destruct g.
    + intros (w & s' & -> & ? & ? & ? & ?)%rep_greedy_sound.
      exists s', c. split; [by exists w | done].
    + intros (w & s' & -> & ? & ? & ? & ?)%rep_lazy_sound.
      exists s', c. split; [by exists w | done].
  - destruct (rmatch r1 s c _) as [y|] eqn:H1.
    + intros [= ->]. apply IH1 in H1 as (s' & c' & Hm & Hk).
      destruct (length s' =? length s); [done |].
      exists s', c'. split; [by right | done].
    + intros H. exists s, c. split; [by left | done].
  - intros (s' & c' & Hm & Hk)%IH1. exists s', (<[i := consumed s s']> c').
    split; [| done]. destruct (matches_suffix _ _ _ _ _ Hm) as [w ->].
    exists w, c'. by rewrite consumed_app.
  - destruct (rmatch r1 s c _) as [c1|] eqn:H1; [| done].
    apply IH1 in H1 as (s1 & c1' & Hm & [= ->]).
    intros H. exists s, c1. split; [| done]. split; [done | by exists s1].
Qed.

Lemma match_at_sound r s s' c :
  match_at r s = Some (s', c) →
  s = consumed s s' ++ s' ∧ matches r s ∅ s' c.
Proof.
  unfold match_at. intros (s1 & c1 & Hm & [= -> ->])%rmatch_sound.
  split; [| done]. destruct (matches_suffix _ _ _ _ _ Hm) as [w ->].
  by rewrite consumed_app.
Qed.

(** A match found by [s.match(r)] is a match of [r] somewhere in [s],
    started with no group set. *)
Lemma str_match_sound r s m :
  str_match r s = Some m →
  ∃ pre, s = pre ++ m_whole m ++ m_rest m
         ∧ matches r (m_whole m ++ m_rest m) ∅ (m_rest m) (m_groups m).
Proof.
  unfold str_match. generalize 0 as i.
  assert (Hhere : ∀ i s s' c, match_at r s = Some (s', c) →
    let m := {| m_index := i; m_whole := consumed s s';
                m_groups := c; m_rest := s' |} in
    s = [] ++ m_whole m ++ m_rest m
    ∧ matches r (m_whole m ++ m_rest m) ∅ (m_rest m) (m_groups m)).
  { intros i s0 s' c [Hs Hm]%match_at_sound. cbn.
    by rewrite <- Hs. }
  induction s as [|a s IH]; intros i.
  - cbn [search]. destruct (match_at r []) as [[s' c]|] eqn:Hm; [| done].
    intros [= <-]. exists []. by apply Hhere.
  - cbn [search]. destruct (match_at r (a :: s)) as [[s' c]|] eqn:Hm.
    + intros [= <-]. exists []. by apply Hhere.
    + intros (pre & -> & H)%IH. by exists (a :: pre).
Qed.

(* ================================================================== *)
(** * Numerals and their conversion *)
(* ================================================================== *)

Section Numerals.

Implicit Types (g w ip fp : jsstring).

Lemma digit_range a : digit a = true ↔ (48 ≤ a ≤ 57)%N.
Proof.
  unfold digit, between. rewrite andb_true_iff, !N.leb_le. done.
Qed.

Lemma digit_cases a :
  digit a = true →
  a ∈ [48; 49; 50; 51; 52; 53; 54; 55; 56; 57]%N.
Proof.
  intros H%digit_range.
  assert (E : a = N.of_nat (N.to_nat a)) by lia. rewrite E.
  assert (Hn : 48 ≤ N.to_nat a ≤ 57) by lia. clear E H.
  destruct (N.to_nat a) as [|n]; [lia |].
  do 47 (destruct n as [|n]; [lia |]).
  do 10 (destruct n as [|n]; [apply list_elem_of_In; simpl; tauto |]). lia.
Qed.

Lemma digit_not_space a : digit a = true → space a = false.
Proof.
  intros H%digit_cases.
  repeat (apply elem_of_cons in H as [-> | H]; [reflexivity |]).
  by apply elem_of_nil in H.
Qed.

Lemma digit_not_sign a : digit a = true → eqc "-" a = false ∧ eqc "+" a = false ∧ eqc "." a = false.
Proof.
  intros H%digit_cases.
  repeat (apply elem_of_cons in H as [-> | H]; [done |]).
  by apply elem_of_nil in H.
Qed.

Lemma trimStart_nospace w :
  Forall (λ a, space a = false) w → trimStart w = w.
Proof.
  intros H. apply trimStart_fix. intros a s' ->.
  by apply Forall_cons in H as [? _].
Qed.

Lemma trim_nospace w : Forall (λ a, space a = false) w → trim w = w.
Proof.
  intros H. unfold trim, trimEnd. rewrite (trimStart_nospace w H).
  rewrite trimStart_nospace; [apply rev_involutive |].
  by apply Forall_rev.
Qed.

Lemma digits_nospace w : digits w → Forall (λ a, space a = false) w.
Proof. intros H. eapply Forall_impl; [exact H | apply digit_not_space]. Qed.

Lemma span_all p w : Forall (λ a, p a = true) w → span p w = (w, []).
Proof.
  induction 1 as [|a w Ha _ IH]; simpl; [done |]. by rewrite Ha, IH.
Qed.

Lemma span_stop p w a rest :
  Forall (λ a, p a = true) w → p a = false →
  span p (w ++ a :: rest) = (w, a :: rest).
Proof.
  intros H Ha. induction H as [|b w Hb _ IH]; simpl.
  - by rewrite Ha.
  - by rewrite Hb, IH.
Qed.

Lemma scan_decimal_int ip :
  digits ip → ip ≠ [] →
  scan_decimal ip = Some (Z.of_N (digits_val ip) # 1, []).
Proof.
  intros H Hne. unfold scan_decimal. rewrite (span_all digit ip H).
  by destruct ip.
Qed.

Lemma scan_decimal_frac ip fp :
  digits ip → ip ≠ [] → digits fp →
  scan_decimal (ip ++ ch "." :: fp) = Some (decimal_value ip fp, []).
Proof.
  intros Hi Hne Hf. unfold scan_decimal.
  rewrite (span_stop digit ip (ch ".") fp Hi eq_refl).
  change (eqc "." (ch ".")) with true. cbn iota.
  rewrite (span_all digit fp Hf). by destruct ip.
Qed.

Lemma scan_signed_unsigned w a w' :
  w = a :: w' → digit a = true → scan_signed w = scan_decimal w.
Proof.
  intros -> (E1 & E2 & _)%digit_not_sign. unfold scan_signed.
  by rewrite E1, E2.
Qed.

(** A string of digits converts to its value. *)
Lemma Number_digits w :
  digits w → w ≠ [] → Number w = Num (Z.of_N (digits_val w) # 1).
Proof.
  intros H Hne. unfold Number. rewrite (trim_nospace w (digits_nospace w H)).
  destruct w as [|a w'] eqn:E; [done |]. rewrite <- E in *.
  rewrite (scan_signed_unsigned w a w' E).
  - by rewrite scan_decimal_int.
  - rewrite E in H. by apply Forall_cons in H as [? _].
Qed.

Lemma Number_frac ip fp :
  digits ip → ip ≠ [] → digits fp →
  Number (ip ++ ch "." :: fp) = Num (decimal_value ip fp).
Proof.
  intros Hi Hne Hf. unfold Number.
  rewrite trim_nospace.
  - destruct ip as [|a ip'] eqn:E; [done |]. rewrite <- E in *.
    assert (Ha : digit a = true).
    { rewrite E in Hi. by apply Forall_cons in Hi as [? _]. }
    destruct (ip ++ ch "." :: fp) as [|b t] eqn:E2.
    { rewrite E in E2. done. }
    rewrite <- E2. rewrite (scan_signed_unsigned _ a (ip' ++ ch "." :: fp)).
    + by rewrite scan_decimal_frac.
    + by rewrite E.
    + done.
  - apply Forall_app. split; [by apply digits_nospace |].
    apply Forall_cons. split; [done | by apply digits_nospace].
Qed.

Lemma Number_seconds g q : seconds_numeral g q → Number g = Num q.
Proof.
  intros (ip & Hi & Hlen & [[-> ->] | (fp & Hf & _ & -> & ->)]).
  - apply Number_digits; [done |]. intros ->. simpl in Hlen. lia.
  - apply Number_frac; [done | | done]. intros ->. simpl in Hlen. lia.
Qed.

(** The captured numerals of the decimal pattern are never NaN. *)
Lemma parseFloat_signed_numeral g neg ip fp :
  signed_numeral g neg ip fp →
  parseFloat g
  = Num (if neg then - decimal_value ip fp else decimal_value ip fp).
Proof.
  intros (-> & Hi & Hlen & Hf & _).
  assert (Hne : ip ≠ []) by (intros ->; simpl in Hlen; lia).
  unfold parseFloat. destruct neg.
  - cbn [app trimStart]. change (space (ch "-")) with false. cbn iota.
    unfold scan_signed. change (eqc "-" (ch "-")) with true. cbn iota.
    by rewrite scan_decimal_frac.
  - cbn [app]. rewrite trimStart_nospace.
    + destruct ip as [|a ip'] eqn:E; [done |]. rewrite <- E in *.
      assert (Ha : digit a = true).
      { rewrite E in Hi. by apply Forall_cons in Hi as [? _]. }
      rewrite (scan_signed_unsigned _ a (ip' ++ ch "." :: fp)); [| by rewrite E | done].
      by rewrite scan_decimal_frac.
    + apply Forall_app. split; [by apply digits_nospace |].
      apply Forall_cons. split; [done | by apply digits_nospace].
Qed.

Lemma decimal_value_nonneg ip fp : (0 <= decimal_value ip fp)%Q.
Proof. unfold decimal_value, Qle. simpl. lia. Qed.

End Numerals.

(* ================================================================== *)
(** * The coordinate parser *)
(* ================================================================== *)

Section Coordinates.

Implicit Types (s w g : jsstring) (c : caps).

Lemma matches_signed_decimal s c s' c' :
  matches signed_decimal s c s' c' →
  c' = c ∧ ∃ w neg ip fp, s = w ++ s' ∧ signed_numeral w neg ip fp.
Proof.
  unfold signed_decimal, opt1, times, plus. cbn [matches].
  intros (s3 & c3 & (s2 & c2 & (s1 & c1 & Hsign & Hint) & Hdot) & Hfrac).
  destruct Hsign as (w0 & -> & Hw0 & _ & Hlen0 & ->).
  destruct Hint as (ip & -> & Hip & Hlo & Hhi & ->).
  destruct Hdot as (x & -> & Hx & ->).
  destruct Hfrac as (fp & -> & Hfp & Hflen & _ & ->).
  split; [done |]. apply N.eqb_eq in Hx. subst x. simpl in Hlen0, Hhi.
  exists (w0 ++ ip ++ ch "." :: fp), (bool_decide (w0 ≠ [])), ip, fp. split.
  - by rewrite <- !app_assoc.
  - split; [| done].
    destruct w0 as [|a [|b w0]]; [done | | simpl in Hlen0; lia].
    apply Forall_cons in Hw0 as [Ha%N.eqb_eq _]. by subst a.
Qed.

(** In every match of the decimal pattern the two groups are set, to
    signed numerals. *)
Lemma decimal_re_groups s s' c' :
  matches decimal_re s ∅ s' c' →
  ∃ g1 n1 i1 f1 g2 n2 i2 f2,
    c' !! 1 = Some g1 ∧ c' !! 2 = Some g2
    ∧ signed_numeral g1 n1 i1 f1 ∧ signed_numeral g2 n2 i2 f2.
Proof.
  unfold decimal_re, star. cbn [matches].
  intros (s4 & c4 & (s3 & c3 & (s2 & c2 & (s1 & c1 & H1 & Hsp1) & Hsep) & Hsp2) & H2).
  destruct H1 as (g1 & d1 & Hm1 & Hs1 & ->).
  apply matches_signed_decimal in Hm1 as (-> & w1 & n1 & i1 & f1 & Hw1 & Hn1).
  assert (w1 = g1) as -> by (eapply app_inv_tail; by rewrite <- Hw1, <- Hs1).
  destruct Hsp1 as (? & _ & _ & _ & _ & ->).
  destruct Hsep as (? & _ & _ & ->).
  destruct Hsp2 as (? & _ & _ & _ & _ & ->).
  destruct H2 as (g2 & d2 & Hm2 & Hs2 & ->).
  apply matches_signed_decimal in Hm2 as (-> & w2 & n2 & i2 & f2 & Hw2 & Hn2).
  assert (w2 = g2) as -> by (eapply app_inv_tail; by rewrite <- Hw2, <- Hs2).
  exists g1, n1, i1, f1, g2, n2, i2, f2.
  rewrite lookup_insert_ne by done. rewrite !lookup_insert_eq. done.
Qed.

(** The decimal branch never falls through once its pattern has matched:
    the result is the pair of captured numerals, each with the sign it is
    written with. *)
Lemma from_decMatch_spec text m :
  str_match decimal_re text = Some m →
  ∃ g1 n1 i1 f1 g2 n2 i2 f2,
    grp m 1 = Some g1 ∧ grp m 2 = Some g2
    ∧ signed_numeral g1 n1 i1 f1 ∧ signed_numeral g2 n2 i2 f2
    ∧ from_decMatch m
      = Some {| latitude := Num (if n1 then - decimal_value i1 f1
                                 else decimal_value i1 f1);
                longitude := Num (if n2 then - decimal_value i2 f2
                                  else decimal_value i2 f2) |}.
Proof.
  intros (pre & _ & Hm)%str_match_sound.
  apply decimal_re_groups in Hm
    as (g1 & n1 & i1 & f1 & g2 & n2 & i2 & f2 & E1 & E2 & H1 & H2).
  exists g1, n1, i1, f1, g2, n2, i2, f2.
  refine (conj E1 (conj E2 (conj H1 (conj H2 _)))).
  unfold from_decMatch, grp. rewrite E1, E2. cbn [parseFloat_grp].
  by rewrite (parseFloat_signed_numeral _ _ _ _ H1),
             (parseFloat_signed_numeral _ _ _ _ H2).
Qed.

End Coordinates.

(** C10, as stated, fails: the text [1234.5678 9.0] holds the two decimal
    numbers 1234.5678 and 9.0 with one space between them, and the parser
    returns 234.5678 and 9.0. The pattern takes at most three digits
    before the point and is not anchored, so the match starts at the
    second digit. *)
Lemma C10_counterexample_four_digits :
  js "1234.5678 9.0" = js "1234.5678" ++ ch " " :: js "9.0"
  ∧ parseFloat (js "1234.5678") = Num (12345678 # 10000)
  ∧ parseFloat (js "9.0") = Num (90 # 10)
  ∧ tryParseCoordinates (js "1234.5678 9.0")
    = Some {| latitude := Num (2345678 # 10000); longitude := Num (90 # 10) |}
  ∧ ¬ (2345678 # 10000 == 12345678 # 10000)%Q
  ∧ tryParseCoordinates (js "1234.5678 9.0")
    ≠ Some {| latitude := parseFloat (js "1234.5678");
              longitude := parseFloat (js "9.0") |}.
Proof.
  assert (E : tryParseCoordinates (js "1234.5678 9.0")
              = Some {| latitude := Num (2345678 # 10000);
                        longitude := Num (90 # 10) |}) by (by vm_compute).
  assert (E1 : parseFloat (js "1234.5678") = Num (12345678 # 10000))
    by (by vm_compute).
  repeat apply conj; try exact E; try exact E1; by vm_compute.
Qed.

(** The first form the comment at line 38 lists is not read: between the
    two numbers of [37.7749° N, 122.4194° W] stand a degree sign and a
    letter, neither pattern matches, and the parser returns null. *)
Remark degree_letter_form_unread :
  tryParseCoordinates (js "37.7749° N, 122.4194° W") = None.
Proof. by vm_compute. Qed.

(** C10, amended. Whenever the decimal pattern matches, the parser
    returns the two captured numerals, each a minus sign or none, one to
    three digits, a point and digits, with the value and the sign as
    written; the DMS pattern and any hemisphere letter in the text play no
    part. So [37.7749, 122.4194 W] gives longitude +122.4194, and a text
    with both notations gives the decimal pair. *)
Theorem C10_decimal_precedence :
  (∀ (text : jsstring) (m : MatchResult),
     str_match decimal_re text = Some m →
     ∃ g1 n1 i1 f1 g2 n2 i2 f2,
       grp m 1 = Some g1 ∧ grp m 2 = Some g2
       ∧ signed_numeral g1 n1 i1 f1 ∧ signed_numeral g2 n2 i2 f2
       ∧ tryParseCoordinates text
         = Some {| latitude := Num (if n1 then - decimal_value i1 f1
                                    else decimal_value i1 f1);
                   longitude := Num (if n2 then - decimal_value i2 f2
                                     else decimal_value i2 f2) |})
  ∧ tryParseCoordinates (js "37.7749, 122.4194 W")
    = Some {| latitude := Num (377749 # 10000);
              longitude := Num (1224194 # 10000) |}
  ∧ tryParseCoordinates (js "37°46′29″N 122°25′10″W (37.7747, -122.4194)")
    = Some {| latitude := Num (377747 # 10000);
              longitude := Num (- 1224194 # 10000) |}.
Proof.
  split; [| split; by vm_compute].
  intros text m Hm.
  destruct (from_decMatch_spec text m Hm)
    as (g1 & n1 & i1 & f1 & g2 & n2 & i2 & f2 & E1 & E2 & H1 & H2 & E).
  exists g1, n1, i1, f1, g2, n2, i2, f2.
  refine (conj E1 (conj E2 (conj H1 (conj H2 _)))).
  unfold tryParseCoordinates. by rewrite Hm, E.
Qed.

Lemma C10_decimal_precedence_witness :
  ∃ m, str_match decimal_re (js "37.7749, 122.4194 W") = Some m
       ∧ ∃ g1 n1 i1 f1 g2 n2 i2 f2,
           grp m 1 = Some g1 ∧ grp m 2 = Some g2
           ∧ signed_numeral g1 n1 i1 f1 ∧ signed_numeral g2 n2 i2 f2
           ∧ tryParseCoordinates (js "37.7749, 122.4194 W")
             = Some {| latitude := Num (if n1 then - decimal_value i1 f1
                                        else decimal_value i1 f1);
                       longitude := Num (if n2 then - decimal_value i2 f2
                                         else decimal_value i2 f2) |}.
Proof.
  eexists. split.
  - vm_compute. reflexivity.
  - apply (proj1 C10_decimal_precedence). vm_compute. reflexivity.
Defined.

(** ** The degrees-minutes-seconds branch *)

Section DMS.

Implicit Types (s w g d mi : jsstring) (c : caps).

Lemma one_of_elem l h : one_of l h = true ↔ h ∈ l.
Proof.
  unfold one_of. induction l as [|a l IH]; simpl.
  - split; [done | by intros ?%elem_of_nil].
  - rewrite orb_true_iff, elem_of_cons, IH, N.eqb_eq. done.
Qed.

Lemma matches_seconds s c s' c' :
  matches seconds_re s c s' c' →
  c' = c ∧ ∃ w q, s = w ++ s' ∧ seconds_numeral w q.
Proof.
  unfold seconds_re, times, plus. cbn [matches].
  intros (s1 & c1 & (ip & -> & Hip & Hlo & Hhi & ->) & Hopt).
  simpl in Hhi.
  destruct Hopt as [[-> ->] | (s2 & c2 & (x & -> & Hx%N.eqb_eq & ->)
                               & (fp & -> & Hfp & Hfl & _ & ->))].
  - split; [done |]. exists ip, (digits_q ip). split; [done |].
    exists ip. split; [done |]. split; [lia |]. by left.
  - split; [done |]. subst x.
    exists (ip ++ ch "." :: fp), (decimal_value ip fp). split.
    + by rewrite <- app_assoc.
    + exists ip. split; [done |]. split; [lia |]. right. by exists fp.
Qed.

Lemma matches_digits_group i lo hi s c s' c' :
  matches (Group i (times lo hi digit)) s c s' c' →
  ∃ w, s = w ++ s' ∧ c' = <[i := w]> c ∧ digits w ∧ lo ≤ length w.
Proof.
  unfold times. cbn [matches].
  intros (w & c1 & (w' & Hs' & Hd & Hlo & _ & ->) & Hs & ->).
  assert (w' = w) as -> by (eapply app_inv_tail; by rewrite <- Hs', <- Hs).
  by exists w.
Qed.

(** One axis of the DMS pattern sets its groups to a string of digits
    for the degrees and for the minutes, a numeral for the seconds when
    they are there, and one hemisphere letter. *)
Lemma matches_dms_axis i hemi s c s' c' :
  matches (dms_axis i hemi) s c s' c' →
  ∃ d mi osec h,
    c' = axis_caps i d mi osec h c
    ∧ digits d ∧ d ≠ [] ∧ digits mi ∧ mi ≠ []
    ∧ (∃ q, seconds_of osec q) ∧ h ∈ hemi.
Proof.
  unfold dms_axis, star, plus, opt1. cbn [matches].
  intros (s8 & c8 & (s7 & c7 & (s6 & c6 & (s5 & c5 & (s4 & c4 & (s3 & c3
           & (s2 & c2 & (s1 & c1 & Hdeg & Hsep) & Hmin) & Hmark) & Hsp1)
           & Hsec) & Hsm) & Hsp2) & Hhem).
  apply matches_digits_group in Hdeg as (d & _ & -> & Hd & Hdl).
  destruct Hsep as (? & _ & _ & _ & _ & ->).
  apply matches_digits_group in Hmin as (mi & _ & -> & Hmi & Hml).
  destruct Hmark as (? & _ & _ & ->).
  destruct Hsp1 as (? & _ & _ & _ & _ & ->).
  destruct Hsm as (? & _ & _ & _ & _ & ->).
  destruct Hsp2 as (? & _ & _ & _ & _ & ->).
  destruct Hhem as (wh & ch0 & (h & -> & Hh%one_of_elem & ->) & Hwh & ->).
  assert (wh = [h]) as ->.
  { eapply app_inv_tail. rewrite <- Hwh. done. }
  assert (Hne : ∀ w, 1 ≤ length w → w ≠ []).
  { intros w Hw ->. simpl in Hw. lia. }
  destruct Hsec as [[_ ->] | (wsec & csec & Hsec & Hws & ->)].
  - exists d, mi, None, h. unfold axis_caps.
    split; [done |]. repeat split; [done | by apply Hne | done | by apply Hne | | done].
    by exists 0%Q.
  - apply matches_seconds in Hsec as (-> & w & q & Hw & Hq).
    exists d, mi, (Some wsec), h. unfold axis_caps.
    split; [done |]. repeat split; [done | by apply Hne | done | by apply Hne | | done].
    exists q. simpl.
    assert (w = wsec) as <-; [| done].
    eapply app_inv_tail. by rewrite <- Hw, <- Hws.
Qed.

End DMS.

Section DMSGroups.

Implicit Types (s w g d mi : jsstring) (c : caps).

Lemma dms_re_caps s s' c' :
  matches dms_re s ∅ s' c' →
  ∃ d1 m1 o1 h1 d2 m2 o2 h2,
    c' = axis_caps 5 d2 m2 o2 h2 (axis_caps 1 d1 m1 o1 h1 ∅)
    ∧ (digits d1 ∧ d1 ≠ [] ∧ digits m1 ∧ m1 ≠ []
       ∧ (∃ q, seconds_of o1 q) ∧ h1 ∈ js "NnSs")
    ∧ (digits d2 ∧ d2 ≠ [] ∧ digits m2 ∧ m2 ≠ []
       ∧ (∃ q, seconds_of o2 q) ∧ h2 ∈ js "EeWw").
Proof.
  unfold dms_re, star, opt1. cbn [matches].
  intros (s4 & c4 & (s3 & c3 & (s2 & c2 & (s1 & c1 & Hlat & Hsp1) & Hcomma)
           & Hsp2) & Hlon).
  apply matches_dms_axis in Hlat as (d1 & m1 & o1 & h1 & -> & Hlat).
  destruct Hsp1 as (? & _ & _ & _ & _ & ->).
  destruct Hcomma as (? & _ & _ & _ & _ & ->).
  destruct Hsp2 as (? & _ & _ & _ & _ & ->).
  apply matches_dms_axis in Hlon as (d2 & m2 & o2 & h2 & -> & Hlon).
  by exists d1, m1, o1, h1, d2, m2, o2, h2.
Qed.

Lemma axis_caps_lookup d1 m1 o1 h1 d2 m2 o2 h2 :
  let c := axis_caps 5 d2 m2 o2 h2 (axis_caps 1 d1 m1 o1 h1 ∅) in
  c !! 1 = Some d1 ∧ c !! 2 = Some m1 ∧ c !! 3 = o1 ∧ c !! 4 = Some [h1]
  ∧ c !! 5 = Some d2 ∧ c !! 6 = Some m2 ∧ c !! 7 = o2 ∧ c !! 8 = Some [h2].
Proof.
  unfold axis_caps. cbn [Nat.add].
  destruct o1, o2; cbn zeta; repeat split;
    repeat first [ rewrite lookup_insert_eq | rewrite lookup_insert_ne by done
                 | rewrite lookup_empty ]; reflexivity.
Qed.

Lemma seconds_numeral_nonempty w q : seconds_numeral w q → w ≠ [].
Proof.
  intros (ip & _ & Hlen & [[-> _] | (fp & _ & _ & -> & _)]) E.
  - subst. simpl in Hlen. lia.
  - by destruct ip.
Qed.

Lemma Number_or0_seconds o q : seconds_of o q → Number_or0 o = Num q.
Proof.
  destruct o as [w|]; simpl; [| by intros ->].
  intros H. pose proof (seconds_numeral_nonempty w q H).
  destruct w; [done |]. by apply Number_seconds.
Qed.

Lemma Number_or0_digits w : digits w → w ≠ [] → Number_or0 (Some w) = Num (digits_q w).
Proof.
  intros H Hne. destruct w as [|a w'] eqn:E; [done |]. cbn [Number_or0].
  rewrite <- E in *. by apply Number_digits.
Qed.

Lemma hem_sign_spec h hemi neg :
  h ∈ hemi → hemi = js "NnSs" ∧ neg = "S"%char ∨ hemi = js "EeWw" ∧ neg = "W"%char →
  hem_sign (Some [h]) neg
  = Num (if bool_decide (h = ch neg ∨ h = lower (ch neg)) then -1 else 1).
Proof.
  intros Hh [[-> ->] | [-> ->]];
    repeat (apply elem_of_cons in Hh as [-> | Hh]; [by vm_compute |]);
    by apply elem_of_nil in Hh.
Qed.

(** The body of the DMS branch on the groups of a match. *)
Lemma from_dmsMatch_spec m d1 m1 o1 h1 d2 m2 o2 h2 q1 q2 :
  m_groups m = axis_caps 5 d2 m2 o2 h2 (axis_caps 1 d1 m1 o1 h1 ∅) →
  digits d1 → d1 ≠ [] → digits m1 → m1 ≠ [] → seconds_of o1 q1 → h1 ∈ js "NnSs" →
  digits d2 → d2 ≠ [] → digits m2 → m2 ≠ [] → seconds_of o2 q2 → h2 ∈ js "EeWw" →
  from_dmsMatch m
  = {| latitude :=
         Num ((digits_q d1 + digits_q m1 / 60 + q1 / 3600)
              * (if bool_decide (h1 = ch "S" ∨ h1 = lower (ch "S")) then -1 else 1));
       longitude :=
         Num ((digits_q d2 + digits_q m2 / 60 + q2 / 3600)
              * (if bool_decide (h2 = ch "W" ∨ h2 = lower (ch "W")) then -1 else 1)) |}.
Proof.
  intros Hc Hd1 Hn1 Hm1 Hnm1 Hq1 Hh1 Hd2 Hn2 Hm2 Hnm2 Hq2 Hh2.
  destruct (axis_caps_lookup d1 m1 o1 h1 d2 m2 o2 h2)
    as (E1 & E2 & E3 & E4 & E5 & E6 & E7 & E8).
  unfold from_dmsMatch, grp. rewrite Hc, E1, E2, E3, E4, E5, E6, E7, E8.
  cbn [Number_grp].
  rewrite (Number_digits d1), (Number_digits d2) by done.
  rewrite (Number_or0_digits m1), (Number_or0_digits m2) by done.
  rewrite (Number_or0_seconds o1 q1), (Number_or0_seconds o2 q2) by done.
  rewrite (hem_sign_spec h1 (js "NnSs") "S") by (by auto).
  rewrite (hem_sign_spec h2 (js "EeWw") "W") by (by auto).
  reflexivity.
Qed.

End DMSGroups.

(** C7, as stated, fails on a text that holds both notations: the DMS
    pattern matches it, and the parser returns the decimal pair, whose
    latitude 37.7747 is not 37 + 46/60 + 29/3600. *)
Lemma C7_counterexample_both_notations :
  let text := js "37°46′29″N 122°25′10″W (37.7747, -122.4194)" in
  (∃ m, str_match dms_re text = Some m)
  ∧ tryParseCoordinates text
    = Some {| latitude := Num (377747 # 10000);
              longitude := Num (- 1224194 # 10000) |}
  ∧ ¬ (377747 # 10000 == 37 + 46 / 60 + 29 / 3600)%Q.
Proof.
  cbn zeta. split; [| split].
  - eexists. vm_compute. reflexivity.
  - by vm_compute.
  - by vm_compute.
Qed.

(** C7, amended. On every text the DMS pattern matches and the decimal
    pattern, tried first, does not, the parser returns, for each axis,
    degrees + minutes/60 + seconds/3600 of the captured numerals (seconds
    0 when absent), negated exactly when the letter is S or s for the
    latitude, W or w for the longitude. The text of the scenario parses to
    37 + 46/60 + 29/3600 and -(122 + 25/60 + 10/3600). *)
Theorem C7_dms_conversion :
  (∀ (text : jsstring) (m : MatchResult),
     str_match decimal_re text = None →
     str_match dms_re text = Some m →
     ∃ d1 m1 h1 d2 m2 h2 (sec1 sec2 lat lon : Q),
       (grp m 1 = Some d1 ∧ grp m 2 = Some m1 ∧ grp m 4 = Some [h1]
        ∧ grp m 5 = Some d2 ∧ grp m 6 = Some m2 ∧ grp m 8 = Some [h2])
       ∧ (digits d1 ∧ digits m1 ∧ seconds_of (grp m 3) sec1 ∧ h1 ∈ js "NnSs")
       ∧ (digits d2 ∧ digits m2 ∧ seconds_of (grp m 7) sec2 ∧ h2 ∈ js "EeWw")
       ∧ tryParseCoordinates text
         = Some {| latitude := Num lat; longitude := Num lon |}
       ∧ (lat == dms_decimal (digits_q d1) (digits_q m1) sec1
                   (bool_decide (h1 = ch "S" ∨ h1 = ch "s")))%Q
       ∧ (lon == dms_decimal (digits_q d2) (digits_q m2) sec2
                   (bool_decide (h2 = ch "W" ∨ h2 = ch "w")))%Q)
  ∧ (∃ lat lon : Q,
       tryParseCoordinates (js "37°46′29″N 122°25′10″W")
       = Some {| latitude := Num lat; longitude := Num lon |}
       ∧ (lat == 37 + 46 / 60 + 29 / 3600)%Q
       ∧ (lon == - (122 + 25 / 60 + 10 / 3600))%Q).
Proof.
  split.
  - intros text m Hdec Hm.
    pose proof Hm as (pre & _ & Hmatch)%str_match_sound.
    apply dms_re_caps in Hmatch
      as (d1 & m1 & o1 & h1 & d2 & m2 & o2 & h2 & Hc
          & (Hd1 & Hn1 & Hm1 & Hnm1 & [q1 Hq1] & Hh1)
          & (Hd2 & Hn2 & Hm2 & Hnm2 & [q2 Hq2] & Hh2)).
    destruct (axis_caps_lookup d1 m1 o1 h1 d2 m2 o2 h2)
      as (E1 & E2 & E3 & E4 & E5 & E6 & E7 & E8).
    exists d1, m1, h1, d2, m2, h2, q1, q2.
    eexists. eexists. unfold grp. rewrite Hc, E1, E2, E3, E4, E5, E6, E7, E8.
    split; [done |]. split; [done |]. split; [done |].
    split; [| split].
    + unfold tryParseCoordinates. rewrite Hdec, Hm. f_equal.
      by apply (from_dmsMatch_spec m d1 m1 o1 h1 d2 m2 o2 h2 q1 q2).
    + unfold dms_decimal. change (lower (ch "S")) with (ch "s").
      destruct (bool_decide _); cbn zeta; ring.
    + unfold dms_decimal. change (lower (ch "W")) with (ch "w").
      destruct (bool_decide _); cbn zeta; ring.
  - eexists. eexists. split; [vm_compute; reflexivity |]. split; by vm_compute.
Qed.

Lemma C7_dms_conversion_witness :
  ∃ lat lon : Q,
    tryParseCoordinates (js "12°30′S 45°15′W")
    = Some {| latitude := Num lat; longitude := Num lon |}
    ∧ (lat == - (12 + 30 / 60))%Q ∧ (lon == - (45 + 15 / 60))%Q.
Proof.
  destruct (proj1 C7_dms_conversion (js "12°30′S 45°15′W") _
              ltac:(vm_compute; reflexivity) ltac:(vm_compute; reflexivity))
    as (d1 & m1 & h1 & d2 & m2 & h2 & sec1 & sec2 & lat & lon
        & _ & _ & _ & H & _ & _).
  exists lat, lon. split; [exact H |].
  vm_compute in H. injection H as <- <-. split; by vm_compute.
Defined.

(* ================================================================== *)
(** * The text segmenter *)
(* ================================================================== *)

Section Segmenter.

Implicit Types (s w cur : jsstring) (p : N → bool).

(** [p+] at the head of the input: the whole run, or nothing. *)
Lemma match_at_plus p s :
  match_at (plus p) s =
    match s with
    | c :: s' => if p c then Some ((span p s').2, ∅) else None
    | [] => None
    end.
Proof.
  unfold match_at, plus. simpl. destruct s as [|c s']; simpl; [done |].
  destruct (p c); simpl; [| done].
  by rewrite (rep_greedy_total p s' (λ s', (s', (∅ : caps)))).
Qed.

Lemma span_snd_length p s : length (span p s).2 ≤ length s.
Proof.
  induction s as [|c s IH]; simpl; [done |].
  destruct (p c); [| simpl; lia]. destruct (span p s); simpl in *. lia.
Qed.

(** No piece of a split on [p+] holds a unit of the class [p]. *)
Lemma split_plus_pieces p s :
  (∀ cur, Forall (λ x, p x = false) cur →
          Forall (Forall (λ x, p x = false)) (split_go (plus p) 0 cur s))
  ∧ Forall (Forall (λ x, p x = false))
      (split_go (plus p) (length s - length (span p s).2) [] s).
Proof.
  induction s as [|x s [IH0 IH1]].
  - split; [| by repeat constructor].
    intros cur Hcur. cbn [split_go]. constructor; [by apply Forall_rev | constructor].
  - assert (H0 : ∀ cur, Forall (λ x, p x = false) cur →
      Forall (Forall (λ x, p x = false)) (split_go (plus p) 0 cur (x :: s))).
    { intros cur Hcur. cbn [split_go]. rewrite match_at_plus.
      destruct (p x) eqn:Hx.
      - pose proof (span_snd_length p s) as Hl.
        replace (length (x :: s) - length (span p s).2)
          with (S (length s - length (span p s).2)) by (simpl; lia).
        constructor; [by apply Forall_rev | exact IH1].
      - apply IH0. by constructor. }
    split; [exact H0 |].
    cbn [span]. destruct (p x) eqn:Hx.
    + pose proof (span_snd_length p s) as Hl.
      destruct (span p s) as [a b] eqn:Hsp. cbn [snd] in *.
      replace (length (x :: s) - length b)
        with (S (length s - length b)) by (simpl; lia).
      cbn [split_go]. exact IH1.
    + cbn [snd]. rewrite Nat.sub_diag. apply H0. constructor.
Qed.

Lemma Forall_trimStart (P : N → Prop) s : Forall P s → Forall P (trimStart s).
Proof.
  intros H. destruct (trimStart_split s) as (w & Hw & _).
  rewrite Hw in H. by apply Forall_app in H as [_ ?].
Qed.

Lemma Forall_trim (P : N → Prop) s : Forall P s → Forall P (trim s).
Proof.
  intros H%Forall_trimStart. unfold trim.
  destruct (trimEnd_split (trimStart s)) as (w & Hw & _).
  rewrite Hw in H. by apply Forall_app in H as [? _].
Qed.

End Segmenter.

Lemma segmenter_phrase_spec (text p : jsstring) :
  p ∈ extractPossibleLocationsFromText text →
  trimmed p ∧ p ≠ []
  ∧ ∀ x, x ∈ [10%N; ch ";"; 8212%N; 8211%N; ch "-"] → x ∉ p.
Proof.
  unfold extractPossibleLocationsFromText.
  intros [Hne Hin]%list_elem_of_filter.
  apply list_elem_of_In, in_map_iff in Hin as (w & <- & Hw%list_elem_of_In).
  split; [apply trim_trimmed |]. split; [intros E; by rewrite E in Hne |].
  assert (Hall : Forall (λ x, one_of [10%N; ch ";"; 8212%N; 8211%N; ch "-"] x = false) w).
  { unfold split_re, separator_re in Hw. destruct text as [|c text].
    - rewrite match_at_plus in Hw. apply list_elem_of_singleton in Hw as ->.
      constructor.
    - pose proof (proj1 (split_plus_pieces
                   (one_of [10%N; ch ";"; 8212%N; 8211%N; ch "-"]) (c :: text))
                   [] (Forall_nil_2 _)) as H.
      rewrite Forall_forall in H. by apply H. }
  apply (Forall_trim _ w) in Hall. rewrite Forall_forall in Hall.
  intros x Hx Hp. apply Hall in Hp. apply one_of_elem in Hx. congruence.
Qed.

(** X1. Every phrase the text segmenter returns is trimmed, non-empty and
    free of the separator units (line feed, semicolon, em dash, en dash,
    hyphen); the empty text gives no phrase. *)
Theorem segmenter_phrases_clean :
  (∀ (text p : jsstring),
     p ∈ extractPossibleLocationsFromText text →
     trimmed p ∧ p ≠ []
     ∧ ∀ x, x ∈ [10%N; ch ";"; 8212%N; 8211%N; ch "-"] → x ∉ p)
  ∧ extractPossibleLocationsFromText [] = [].
Proof.
  split; [exact segmenter_phrase_spec | by vm_compute].
Qed.

Lemma segmenter_phrases_clean_witness :
  trimmed (js "London, UK") ∧ js "London, UK" ≠ []
  ∧ ∀ x, x ∈ [10%N; ch ";"; 8212%N; 8211%N; ch "-"] → x ∉ js "London, UK".
Proof.
  apply (proj1 segmenter_phrases_clean (js "Paris, France; London, UK")).
  vm_compute. apply elem_of_cons. right. apply elem_of_cons. by left.
Defined.

(* ================================================================== *)
(** * More on the coordinate parser *)
(* ================================================================== *)

Section ParserShape.

Implicit Types (s w g : jsstring) (c : caps).

(** Where the two numerals of a decimal match sit in the input. *)
Lemma decimal_re_shape s s' c' :
  matches decimal_re s ∅ s' c' →
  ∃ g1 n1 i1 f1 sep g2 n2 i2 f2,
    s = g1 ++ sep ++ g2 ++ s'
    ∧ c' !! 1 = Some g1 ∧ c' !! 2 = Some g2
    ∧ signed_numeral g1 n1 i1 f1 ∧ signed_numeral g2 n2 i2 f2.
Proof.
  unfold decimal_re, star. cbn [matches].
  intros (s4 & c4 & (s3 & c3 & (s2 & c2 & (s1 & c1 & H1 & Hsp1) & Hsep) & Hsp2) & H2).
  destruct H1 as (g1 & d1 & Hm1 & Hs1 & ->).
  apply matches_signed_decimal in Hm1 as (-> & w1 & n1 & i1 & f1 & Hw1 & Hn1).
  assert (w1 = g1) as -> by (eapply app_inv_tail; by rewrite <- Hw1, <- Hs1).
  destruct Hsp1 as (wa & Ha & _ & _ & _ & ->).
  destruct Hsep as (x & Hx & _ & ->).
  destruct Hsp2 as (wb & Hb & _ & _ & _ & ->).
  destruct H2 as (g2 & d2 & Hm2 & Hs2 & ->).
  apply matches_signed_decimal in Hm2 as (-> & w2 & n2 & i2 & f2 & Hw2 & Hn2).
  assert (w2 = g2) as -> by (eapply app_inv_tail; by rewrite <- Hw2, <- Hs2).
  exists g1, n1, i1, f1, (wa ++ x :: wb), g2, n2, i2, f2.
  split.
  - rewrite Hs1, Ha, Hx, Hb, Hs2. by rewrite <- !app_assoc.
  - rewrite lookup_insert_ne by done. rewrite !lookup_insert_eq. done.
Qed.

Lemma signed_numeral_head g i f :
  signed_numeral g true i f → ∃ t, g = ch "-" :: t.
Proof. intros (-> & _). simpl. eauto. Qed.

Lemma signed_numeral_digit g n i f :
  signed_numeral g n i f → ∃ d, digit d = true ∧ d ∈ g.
Proof.
  intros (-> & Hi & Hlen & _). destruct i as [|d i]; [simpl in Hlen; lia |].
  exists d. split; [by apply Forall_cons in Hi as [? _] |].
  apply elem_of_app. right. by left.
Qed.

(** The DMS pattern starts on a digit. *)
Lemma dms_re_head s s' c' :
  matches dms_re s ∅ s' c' → ∃ d t, s = d :: t ∧ digit d = true.
Proof.
  unfold dms_re, dms_axis, star, plus, opt1. cbn [matches].
  intros (s4 & c4 & (s3 & c3 & (s2 & c2 & (s1 & c1 & Hlat & _) & _) & _) & _).
  destruct Hlat as (t8 & d8 & (t7 & d7 & (t6 & d6 & (t5 & d5 & (t4 & d4
           & (t3 & d3 & (t2 & d2 & (t1 & d1 & Hdeg & _) & _) & _) & _)
           & _) & _) & _) & _).
  apply matches_digits_group in Hdeg as (w & -> & _ & Hd & Hl).
  destruct w as [|d w]; [simpl in Hl; lia |].
  exists d, (w ++ t1). split; [done |]. by apply Forall_cons in Hd as [? _].
Qed.

End ParserShape.

(** X2. Whenever the parser returns coordinates, both are numbers, never
    NaN: the guard of line 43 never rejects a decimal match, and the
    conversions of the DMS branch are applied to numerals only. *)
Theorem parser_never_NaN (text : jsstring) (c : Coordinates) :
  tryParseCoordinates text = Some c →
  ∃ a b : Q, c = {| latitude := Num a; longitude := Num b |}.
Proof.
  unfold tryParseCoordinates.
  destruct (str_match decimal_re text) as [m|] eqn:Hdec.
  - destruct (from_decMatch_spec text m Hdec)
      as (g1 & n1 & i1 & f1 & g2 & n2 & i2 & f2 & _ & _ & _ & _ & E).
    rewrite E. intros [= <-]. eauto.
  - destruct (str_match dms_re text) as [m|] eqn:Hdms; [| done].
    intros [= <-].
    pose proof Hdms as (pre & _ & Hmatch)%str_match_sound.
    apply dms_re_caps in Hmatch
      as (d1 & m1 & o1 & h1 & d2 & m2 & o2 & h2 & Hc
          & (Hd1 & Hn1 & Hm1 & Hnm1 & [q1 Hq1] & Hh1)
          & (Hd2 & Hn2 & Hm2 & Hnm2 & [q2 Hq2] & Hh2)).
    rewrite (from_dmsMatch_spec m d1 m1 o1 h1 d2 m2 o2 h2 q1 q2) by done.
    eauto.
Qed.

Lemma parser_never_NaN_witness :
  ∃ c, tryParseCoordinates (js "camp at 12°30′S 45°15′W") = Some c
       ∧ ∃ a b : Q, c = {| latitude := Num a; longitude := Num b |}.
Proof.
  eexists. split; [vm_compute; reflexivity |].
  apply (parser_never_NaN (js "camp at 12°30′S 45°15′W")). by vm_compute.
Defined.

(** X3. A text without a digit has no coordinates: the parser returns
    null. *)
Theorem parser_needs_digit (text : jsstring) :
  Forall (λ x, digit x = false) text → tryParseCoordinates text = None.
Proof.
  intros Hnd. rewrite Forall_forall in Hnd.
  unfold tryParseCoordinates.
  destruct (str_match decimal_re text) as [m|] eqn:Hdec.
  { exfalso. apply str_match_sound in Hdec as (pre & Htext & Hm).
    apply decimal_re_shape in Hm
      as (g1 & n1 & i1 & f1 & sep & g2 & n2 & i2 & f2 & Hs & _ & _ & H1 & _).
    apply signed_numeral_digit in H1 as (d & Hd & Hin).
    assert (d ∈ text).
    { rewrite Htext, Hs. apply elem_of_app. right. apply elem_of_app. by left. }
    apply Hnd in H. congruence. }
  destruct (str_match dms_re text) as [m|] eqn:Hdms; [| done].
  exfalso. apply str_match_sound in Hdms as (pre & Htext & Hm).
  apply dms_re_head in Hm as (d & t & Hs & Hd).
  assert (d ∈ text).
  { rewrite Htext, Hs. apply elem_of_app. right. by left. }
  apply Hnd in H. congruence.
Qed.

Lemma parser_needs_digit_witness :
  tryParseCoordinates (js "Paris, France") = None.
Proof.
  apply parser_needs_digit. vm_compute. repeat constructor.
Defined.

(** X4. The segmenter cuts at every hyphen, so a phrase it returns never
    holds a minus sign: when the decimal pattern matches such a phrase,
    neither coordinate is negative. *)
Theorem segmenter_phrases_unsigned (text p : jsstring) (m : MatchResult) :
  p ∈ extractPossibleLocationsFromText text →
  str_match decimal_re p = Some m →
  ∃ a b : Q,
    tryParseCoordinates p = Some {| latitude := Num a; longitude := Num b |}
    ∧ (0 <= a)%Q ∧ (0 <= b)%Q.
Proof.
  intros Hp Hm.
  destruct (segmenter_phrase_spec text p Hp) as (_ & _ & Hsep).
  assert (Hminus : ch "-" ∉ p).
  { apply Hsep. apply list_elem_of_In. simpl. tauto. }
  pose proof Hm as (pre & Htext & Hmatch)%str_match_sound.
  apply decimal_re_shape in Hmatch
    as (g1 & n1 & i1 & f1 & sep & g2 & n2 & i2 & f2 & Hs & E1 & E2 & H1 & H2).
  assert (n1 = false) as ->.
  { destruct n1; [| done]. exfalso.
    apply signed_numeral_head in H1 as [t ->]. apply Hminus.
    rewrite Htext, Hs. apply elem_of_app. right. by left. }
  assert (n2 = false) as ->.
  { destruct n2; [| done]. exfalso.
    apply signed_numeral_head in H2 as [t ->]. apply Hminus.
    rewrite Htext, Hs. apply elem_of_app. right. apply elem_of_app. right.
    apply elem_of_app. right. by left. }
  exists (decimal_value i1 f1), (decimal_value i2 f2).
  split; [| split; apply decimal_value_nonneg].
  unfold tryParseCoordinates. rewrite Hm.
  unfold from_decMatch, grp. rewrite E1, E2. cbn [parseFloat_grp].
  by rewrite (parseFloat_signed_numeral _ _ _ _ H1),
             (parseFloat_signed_numeral _ _ _ _ H2).
Qed.

Lemma segmenter_phrases_unsigned_witness :
  ∃ a b : Q,
    tryParseCoordinates (js "Pier 39, 37.8087, 122.4098")
    = Some {| latitude := Num a; longitude := Num b |}
    ∧ (0 <= a)%Q ∧ (0 <= b)%Q.
Proof.
  eapply (segmenter_phrases_unsigned
            (js "Pier 39, 37.8087, 122.4098; Alcatraz")).
  - vm_compute. by left.
  - vm_compute. reflexivity.
Defined.

(** ** The magnitude of the results *)

Section Bounds.

Implicit Types (ds ip fp w g : jsstring).

Lemma digits_val_acc ds (acc : N) :
  fold_left (λ acc d, (acc * 10 + (d - 48))%N) ds acc
  = (acc * 10 ^ N.of_nat (length ds) + digits_val ds)%N.
Proof.
  unfold digits_val. revert acc. induction ds as [|d ds IH]; intros acc.
  - simpl. lia.
  - cbn [fold_left length]. rewrite IH, (IH (0 * 10 + (d - 48))%N).
    rewrite Nat2N.inj_succ, N.pow_succ_r'. lia.
Qed.

Lemma digits_val_app ip fp :
  digits_val (ip ++ fp)
  = (digits_val ip * 10 ^ N.of_nat (length fp) + digits_val fp)%N.
Proof.
  unfold digits_val at 1. rewrite fold_left_app.
  fold (digits_val ip). apply digits_val_acc.
Qed.

Lemma digits_val_lt ds :
  digits ds → (digits_val ds < 10 ^ N.of_nat (length ds))%N.
Proof.
  induction 1 as [|d ds Hd _ IH].
  - by vm_compute.
  - change (d :: ds) with ([d] ++ ds). rewrite digits_val_app.
    apply digit_range in Hd.
    change (digits_val [d]) with (0 * 10 + (d - 48))%N.
    cbn [length app]. rewrite Nat2N.inj_succ, N.pow_succ_r'. nia.
Qed.

Lemma pow10_spec n : N.pos (pow10 n) = (10 ^ N.of_nat n)%N.
Proof.
  induction n as [|n IH]; [done |].
  rewrite Nat2N.inj_succ, N.pow_succ_r', <- IH. unfold pow10. simpl. lia.
Qed.

Lemma digits_q_bounds ds n :
  digits ds → length ds ≤ n →
  (0 <= digits_q ds)%Q ∧ (digits_q ds < inject_Z (10 ^ Z.of_nat n))%Q.
Proof.
  intros Hd Hn. pose proof (digits_val_lt ds Hd) as Hlt.
  assert (Hmono : (10 ^ N.of_nat (length ds) ≤ 10 ^ N.of_nat n)%N).
  { apply N.pow_le_mono_r; lia. }
  assert (E : Z.of_N (10 ^ N.of_nat n) = (10 ^ Z.of_nat n)%Z).
  { rewrite N2Z.inj_pow. by rewrite nat_N_Z. }
  unfold digits_q, Qle, Qlt, inject_Z. simpl. lia.
Qed.

Lemma decimal_value_lt ip fp n :
  digits ip → digits fp → length ip ≤ n →
  (decimal_value ip fp < inject_Z (10 ^ Z.of_nat n))%Q.
Proof.
  intros Hi Hf Hn.
  pose proof (digits_val_lt ip Hi) as Hil.
  pose proof (digits_val_lt fp Hf) as Hfl.
  assert (Hmono : (10 ^ N.of_nat (length ip) ≤ 10 ^ N.of_nat n)%N).
  { apply N.pow_le_mono_r; lia. }
  assert (E : Z.of_N (10 ^ N.of_nat n) = (10 ^ Z.of_nat n)%Z).
  { rewrite N2Z.inj_pow. by rewrite nat_N_Z. }
  unfold decimal_value, Qlt, inject_Z. cbn [Qnum Qden].
  rewrite digits_val_app.
  assert (Ep : Z.pos (pow10 (length fp)) = Z.of_N (10 ^ N.of_nat (length fp))).
  { rewrite <- pow10_spec. done. }
  rewrite Ep, <- E. nia.
Qed.

(** The exact value of a signed numeral of the decimal pattern lies
    strictly between -1000 and 1000. *)
Lemma signed_numeral_bound g n i f :
  signed_numeral g n i f →
  let v := if n then (- decimal_value i f)%Q else decimal_value i f in
  (- (1000) < v)%Q ∧ (v < 1000)%Q.
Proof.
  intros (_ & Hi & Hlen & Hf & _). cbn zeta.
  pose proof (decimal_value_lt i f 3 Hi Hf ltac:(lia)) as Hlt.
  pose proof (decimal_value_nonneg i f) as Hge.
  change (inject_Z (10 ^ Z.of_nat 3)) with 1000%Q in Hlt.
  destruct n; split; lra.
Qed.

End Bounds.

(** X5. The decimal branch validates no range, yet its pattern bounds the
    result: each coordinate of a decimal match lies between -1000 and
    1000 (so a latitude such as 123.5 is returned as it is). The numbers
    here are the exact values of the numerals and the program's are the
    doubles nearest to them, hence the bounds are not strict
    (999.99999999999999999 is read as 1000): they hold of the exact values
    and of their images under any monotone rounding that keeps -1000 and
    1000. *)
Theorem decimal_coordinates_bounded (text : jsstring) (m : MatchResult) :
  str_match decimal_re text = Some m →
  ∃ a b : Q,
    tryParseCoordinates text
    = Some {| latitude := Num a; longitude := Num b |}
    ∧ (- (1000) <= a)%Q ∧ (a <= 1000)%Q ∧ (- (1000) <= b)%Q ∧ (b <= 1000)%Q
    ∧ ∀ rnd : Q → Q,
        (∀ x y : Q, (x <= y)%Q → (rnd x <= rnd y)%Q) →
        (rnd 1000 == 1000)%Q → (rnd (- (1000)) == - (1000))%Q →
        (- (1000) <= rnd a)%Q ∧ (rnd a <= 1000)%Q
        ∧ (- (1000) <= rnd b)%Q ∧ (rnd b <= 1000)%Q.
Proof.
  intros Hm.
  destruct (from_decMatch_spec text m Hm)
    as (g1 & n1 & i1 & f1 & g2 & n2 & i2 & f2 & _ & _ & H1 & H2 & E).
  eexists. eexists. split.
  - unfold tryParseCoordinates. rewrite Hm, E. reflexivity.
  - destruct (signed_numeral_bound _ _ _ _ H1) as [Ha1 Ha2].
    destruct (signed_numeral_bound _ _ _ _ H2) as [Hb1 Hb2].
    cbn zeta in Ha1, Ha2, Hb1, Hb2.
    apply Qlt_le_weak in Ha1, Ha2, Hb1, Hb2.
    refine (conj Ha1 (conj Ha2 (conj Hb1 (conj Hb2 _)))).
    intros rnd Hmono Hhi Hlo.
    pose proof (Hmono _ _ Ha1). pose proof (Hmono _ _ Ha2).
    pose proof (Hmono _ _ Hb1). pose proof (Hmono _ _ Hb2).
    repeat apply conj; lra.
Qed.

Lemma decimal_coordinates_bounded_witness :
  ∃ a b : Q,
    tryParseCoordinates (js "Studio lot 123.5, -999.99")
    = Some {| latitude := Num a; longitude := Num b |}
    ∧ (- (1000) <= a)%Q ∧ (a <= 1000)%Q ∧ (- (1000) <= b)%Q ∧ (b <= 1000)%Q.
Proof.
  edestruct (decimal_coordinates_bounded (js "Studio lot 123.5, -999.99"))
    as (a & b & E & Ha1 & Ha2 & Hb1 & Hb2 & _).
  - vm_compute. reflexivity.
  - exists a, b. done.
Defined.

(* ================================================================== *)
(** * The normalised phrases *)
(* ================================================================== *)

Section Phrases.

Implicit Types (s t u v : jsstring) (l : list jsstring).

Lemma tidy_space_unit b t x :
  tidy b t = true → x ∈ t → space x = true → x = ch " ".
Proof.
  revert b. induction t as [|y t IH]; intros b Ht Hx Hs.
  - by apply elem_of_nil in Hx.
  - simpl in Ht. apply elem_of_cons in Hx as [-> | Hx].
    + rewrite Hs in Ht. apply andb_prop in Ht as [Ht _].
      apply andb_prop in Ht as [_ Ht]. by apply N.eqb_eq in Ht.
    + destruct (space y).
      * apply andb_prop in Ht as [_ Ht]. by apply (IH true).
      * by apply (IH false).
Qed.

Lemma tidy_no_adjacent b t u v x y :
  tidy b t = true → t = u ++ x :: y :: v → space x = true → space y = false.
Proof.
  revert b t. induction u as [|z u IH]; intros b t Ht -> Hx.
  - simpl in Ht. rewrite Hx in Ht. apply andb_prop in Ht as [_ Ht].
    simpl in Ht. destruct (space y); [| done]. done.
  - simpl in Ht. destruct (space z).
    + apply andb_prop in Ht as [_ Ht]. by apply (IH true _ Ht).
    + by apply (IH false _ Ht).
Qed.

Lemma squeeze_keeps_content b s :
  filter (λ x, space x = false) (squeeze b s)
  = filter (λ x, space x = false) s.
Proof.
  revert b. induction s as [|x s IH]; intros b; [done |].
  cbn [squeeze]. destruct (space x) eqn:Hx.
  - rewrite (filter_cons_False _ x s) by congruence.
    destruct b; [apply IH |].
    rewrite filter_cons_False by done. apply IH.
  - rewrite !filter_cons_True by done. by rewrite IH.
Qed.

Lemma filter_spaces_nil w :
  Forall (λ c, space c = true) w → filter (λ x, space x = false) w = [].
Proof.
  induction 1 as [|x w Hx _ IH]; [done |].
  rewrite filter_cons_False by congruence. exact IH.
Qed.

Lemma trim_keeps_content s :
  filter (λ x, space x = false) (trim s) = filter (λ x, space x = false) s.
Proof.
  unfold trim.
  destruct (trimStart_split s) as (w1 & Hw1 & Hs1).
  destruct (trimEnd_split (trimStart s)) as (w2 & Hw2 & Hs2).
  rewrite Hw1 at 2. rewrite Hw2 at 2.
  rewrite !filter_app, (filter_spaces_nil w1 Hs1), (filter_spaces_nil w2 Hs2).
  by rewrite app_nil_r.
Qed.

Lemma squeeze_length b s : length (squeeze b s) ≤ length s.
Proof.
  revert b. induction s as [|x s IH]; intros b; simpl; [done |].
  destruct (space x); [destruct b |]; simpl;
    pose proof (IH true); pose proof (IH false); lia.
Qed.

Lemma norm_from_sublist acc l : norm_from acc l `sublist_of` map collapse l.
Proof.
  revert acc. induction l as [|loc l IH]; intros acc; simpl; [constructor |].
  destruct (keepable (collapse loc) && _).
  - apply sublist_skip, IH.
  - apply sublist_cons, IH.
Qed.

End Phrases.

(** X6. The white-space collapse of line 171 only touches white space: the
    other units of the phrase are kept, in order, and the result is no
    longer than the phrase. *)
Theorem collapse_keeps_content (loc : jsstring) :
  filter (λ x, space x = false) (collapse loc)
  = filter (λ x, space x = false) loc
  ∧ length (collapse loc) ≤ length loc.
Proof.
  rewrite collapse_squeeze. split.
  - by rewrite trim_keeps_content, squeeze_keeps_content.
  - pose proof (trim_length (squeeze false loc)).
    pose proof (squeeze_length false loc). lia.
Qed.

(** X7. Every phrase the normalisation loop keeps has at least 3 units,
    neither starts nor ends with white space, holds no white space but the
    plain space, and never two white-space units in a row; the kept
    phrases are the collapsed candidates in their order, some left out. *)
Theorem normalized_phrases_shape (locations : list jsstring) :
  (∀ t : jsstring,
     t ∈ normalize locations →
     3 ≤ length t ∧ trimmed t
     ∧ (∀ x, x ∈ t → space x = true → x = ch " ")
     ∧ (∀ u v x y, t = u ++ x :: y :: v → space x = true → space y = false))
  ∧ normalize locations `sublist_of` map collapse locations
  ∧ length (normalize locations) ≤ length locations.
Proof.
  split; [| split].
  - intros t (Hk & loc & _ & <-)%elem_of_normalize.
    pose proof (collapse_tidy loc) as Ht.
    split; [by apply keepable_length |].
    split; [unfold trimmed, collapse; apply trim_idem |].
    split.
    + intros x. by apply (tidy_space_unit false).
    + intros u v x y. by apply (tidy_no_adjacent false).
  - rewrite normalize_norm_from. apply norm_from_sublist.
  - rewrite normalize_norm_from.
    pose proof (sublist_length _ _ (norm_from_sublist [] locations)) as H.
    by rewrite length_map in H.
Qed.

Lemma normalized_phrases_shape_witness :
  3 ≤ length (js "Paris, France") ∧ trimmed (js "Paris, France")
  ∧ (∀ x, x ∈ js "Paris, France" → space x = true → x = ch " ")
  ∧ (∀ u v x y, js "Paris, France" = u ++ x :: y :: v →
       space x = true → space y = false).
Proof.
  apply (proj1 (normalized_phrases_shape [js "  Paris,   France "; js "ab"])).
  vm_compute. by left.
Defined.

(* ================================================================== *)
(** * Records and audit *)
(* ================================================================== *)

(** X8. One page run gives at most 200 records, and an audit list of at
    most 500 phrases; the records are made, in order, from the first 200
    phrases of the audit list. *)
Theorem page_output_caps (input : Input) (page : Page) :
  length (page_records input page) ≤ 200
  ∧ length (extracted_locations (page_audit input page)) ≤ 500
  ∧ map location_text (page_records input page)
    = take 200 (extracted_locations (page_audit input page)).
Proof.
  unfold page_records, page_audit, slice0. cbn [extracted_locations].
  rewrite length_map, !length_take, location_text_records, take_take.
  repeat split; lia || done.
Qed.

(* ================================================================== *)
(** * Title year, sibling walk and comma segments *)
(* ================================================================== *)

Section Year.

Implicit Types (s pre post y : jsstring).

Lemma year_search_sound prev s y :
  year_search prev s = Some y →
  ∃ pre post c d,
    s = pre ++ y ++ post
    ∧ (y = js "19" ++ [c; d] ∨ y = js "20" ++ [c; d])
    ∧ digit c = true ∧ digit d = true
    ∧ match last pre with Some x => word x = false | None => prev = false end
    ∧ match head post with Some x => word x = false | None => True end.
Proof.
  revert prev. induction s as [|a s IH]; intros prev; [done |].
  cbn [year_search].
  assert (Hrec : year_search (word a) s = Some y →
    ∃ pre post c d,
      a :: s = pre ++ y ++ post
      ∧ (y = js "19" ++ [c; d] ∨ y = js "20" ++ [c; d])
      ∧ digit c = true ∧ digit d = true
      ∧ match last pre with Some x => word x = false | None => prev = false end
      ∧ match head post with Some x => word x = false | None => True end).
  { intros (pre & post & c & d & -> & Hy & Hc & Hd & Hl & Hh)%IH.
    exists (a :: pre), post, c, d. split; [done |].
    split; [done |]. split; [done |]. split; [done |]. split; [| done].
    rewrite last_cons. by destruct (last pre). }
  destruct s as [|b [|d1 [|d2 r]]]; try exact Hrec.
  destruct (negb prev && _ && digit d1 && digit d2 && _) eqn:Hcond;
    [| exact Hrec].
  intros [= <-].
  apply andb_prop in Hcond as [Hcond Hr].
  apply andb_prop in Hcond as [Hcond Hd2].
  apply andb_prop in Hcond as [Hcond Hd1].
  apply andb_prop in Hcond as [Hprev Hab].
  exists [], r, d1, d2. split; [done |]. split.
  - apply orb_prop in Hab as [H | H]; apply andb_prop in H as [Ha Hb];
      apply N.eqb_eq in Ha, Hb; subst a b; [by left | by right].
  - split; [done |]. split; [done |]. split.
    + simpl. by destruct prev.
    + destruct r as [|x r]; simpl; [done |]. by destruct (word x).
Qed.

End Year.

(** X10. The year of a record is empty or four units of the title: 19 or
    20 and two digits, with no word character just before or just after
    (so 2010 is found in [Inception (2010)] and nothing in a longer run of
    digits or letters). *)
Theorem year_of_title (title : jsstring) :
  year_of title = []
  ∨ ∃ pre post c d,
      title = pre ++ year_of title ++ post
      ∧ (year_of title = js "19" ++ [c; d] ∨ year_of title = js "20" ++ [c; d])
      ∧ digit c = true ∧ digit d = true
      ∧ match last pre with Some x => word x = false | None => True end
      ∧ match head post with Some x => word x = false | None => True end.
Proof.
  unfold year_of. destruct (year_search false title) as [y|] eqn:Hy; [| by left].
  right. apply year_search_sound in Hy
    as (pre & post & c & d & Ht & Hy & Hc & Hd & Hl & Hh).
  exists pre, post, c, d. cbn [default].
  split; [done |]. split; [done |]. split; [done |]. split; [done |].
  split; [| done]. by destruct (last pre).
Qed.

Section Walk.

Implicit Types (nodes pre post : list Node) (h : Node).

Lemma gather_take n nodes : gather n nodes = gather n (take n nodes).
Proof.
  revert nodes. induction n as [|n IH]; intros [|node rest]; simpl; try done.
  destruct (is_heading_name (node_name node)); [done |]. by rewrite <- IH.
Qed.

Lemma gather_stops n pre h post :
  is_heading_name (node_name h) = true →
  gather n (pre ++ h :: post) = gather n pre.
Proof.
  intros Hh. revert n. induction pre as [|node pre IH]; intros [|n]; simpl; try done.
  - by rewrite Hh.
  - destruct (is_heading_name (node_name node)); [done |]. by rewrite IH.
Qed.

Lemma gather_app n pre post :
  length pre ≤ n →
  Forall (λ node, is_heading_name (node_name node) = false) pre →
  gather n (pre ++ post)
  = flat_map (λ node, 10%N :: node_text node) pre
    ++ gather (n - length pre) post.
Proof.
  revert n. induction pre as [|node pre IH]; intros n Hn Hall.
  - simpl. by rewrite Nat.sub_0_r.
  - destruct n as [|n]; [simpl in Hn; lia |].
    apply Forall_cons in Hall as [Hnode Hall].
    cbn [app gather length flat_map]. rewrite Hnode.
    rewrite IH by (simpl in Hn; lia || done).
    cbn [Nat.sub]. by rewrite <- !app_assoc.
Qed.

End Walk.

(** X11. The sibling walk under a heading reads at most 200 siblings and
    nothing from the next heading element on: what follows that heading,
    or the 200th sibling, never reaches the gathered text. Up to there it
    gathers each sibling's text, a line feed before each. *)
Theorem sibling_walk_bounds :
  (∀ nodes : list Node, gather 200 nodes = gather 200 (take 200 nodes))
  ∧ (∀ (pre post : list Node) (h : Node),
       is_heading_name (node_name h) = true →
       gather 200 (pre ++ h :: post) = gather 200 pre)
  ∧ (∀ pre : list Node,
       length pre ≤ 200 →
       Forall (λ node, is_heading_name (node_name node) = false) pre →
       gather 200 pre = flat_map (λ node, 10%N :: node_text node) pre).
Proof.
  split; [| split].
  - intros nodes. apply gather_take.
  - intros pre post h. apply gather_stops.
  - intros pre Hlen Hall.
    rewrite <- (app_nil_r pre) at 1. rewrite gather_app by done.
    destruct (200 - length pre); simpl; by rewrite app_nil_r.
Qed.

Lemma sibling_walk_bounds_witness :
  gather 200 ([{| node_name := js "p"; node_text := js "Paris" |}]
              ++ {| node_name := js "H2"; node_text := js "Cast" |}
                 :: [{| node_name := js "p"; node_text := js "Actors" |}])
  = 10%N :: js "Paris".
Proof.
  rewrite (proj1 (proj2 sibling_walk_bounds)) by (by vm_compute).
  rewrite (proj2 (proj2 sibling_walk_bounds)).
  - by vm_compute.
  - simpl. lia.
  - repeat constructor.
Defined.

Section Segments.

Implicit Types (s cur p : jsstring).

Lemma split_on_pieces sep cur s :
  Forall (λ x, x ≠ sep) cur →
  Forall (Forall (λ x, x ≠ sep)) (split_on sep cur s).
Proof.
  revert cur. induction s as [|c s IH]; intros cur Hcur; simpl.
  - constructor; [by apply Forall_rev | constructor].
  - destruct (N.eqb_spec c sep) as [-> | Hne].
    + constructor; [by apply Forall_rev | by apply IH].
    + apply IH. by constructor.
Qed.

Lemma comma_parts_spec (locText p : jsstring) :
  p ∈ comma_parts locText → trimmed p ∧ p ≠ [] ∧ ch "," ∉ p.
Proof.
  unfold comma_parts. intros [Hne Hin]%list_elem_of_filter.
  apply list_elem_of_In, in_map_iff in Hin as (w & <- & Hw%list_elem_of_In).
  split; [apply trim_trimmed |]. split; [intros E; by rewrite E in Hne |].
  pose proof (split_on_pieces (ch ",") [] locText (Forall_nil_2 _)) as H.
  rewrite Forall_forall in H. apply H in Hw.
  apply (Forall_trim _ w) in Hw. rewrite Forall_forall in Hw.
  intros Hc. by apply Hw in Hc.
Qed.

End Segments.

(** X12. The city and the region of a record hold no comma and are
    trimmed, whatever the phrase; the city is empty only when the phrase
    has no segment at all (nothing but commas and white space). *)
Theorem city_region_comma_free (page : Page) (locText : jsstring) :
  let r := make_record page locText in
  (ch "," ∉ city r) ∧ (ch "," ∉ region r)
  ∧ trimmed (city r) ∧ trimmed (region r)
  ∧ (city r = [] ↔ comma_parts locText = []).
Proof.
  cbn zeta. unfold make_record. cbn [city region].
  pose proof (comma_parts_spec locText) as H.
  destruct (comma_parts locText) as [|a [|b [|c rest]]]; cbn.
  - repeat split; by (apply not_elem_of_nil || vm_compute).
  - destruct (H a) as (? & ? & ?); [by left |].
    repeat split; try done; by (apply not_elem_of_nil || vm_compute).
  - destruct (H a) as (? & ? & ?); [by left |].
    repeat split; try done; by (apply not_elem_of_nil || vm_compute).
  - destruct (H a) as (? & ? & ?); [by left |].
    destruct (H b) as (? & ? & ?); [right; by left |].
    repeat split; try done.
Qed.

(** X13. The phrases of the heading strategy come out of the segmenter:
    each is trimmed, non-empty and free of line feeds, semicolons, dashes
    and hyphens; a page without a heading whose text contains
    [filming location] in any letter case gives none. *)
Theorem heading_phrases_clean (page : Page) :
  (∀ p : jsstring,
     p ∈ heading_locations page →
     trimmed p ∧ p ≠ []
     ∧ ∀ x, x ∈ [10%N; ch ";"; 8212%N; 8211%N; ch "-"] → x ∉ p)
  ∧ (Forall (λ h, includes (toLowerCase (h_text h)) (js "filming location") = false)
            (p_headings page) →
     heading_locations page = []).
Proof.
  unfold heading_locations. split.
  - intros p Hp. apply list_elem_of_In, in_flat_map in Hp as (h & _ & Hp).
    apply list_elem_of_In in Hp.
    destruct (truthy_str (trim (gather 200 (h_next h))));
      [| by apply elem_of_nil in Hp].
    by apply (segmenter_phrase_spec (gather 200 (h_next h))).
  - intros Hall. induction Hall as [|h hs Hh _ IH]; [done |].
    rewrite filter_cons_False by congruence. exact IH.
Qed.

Lemma heading_phrases_clean_witness :
  heading_locations (heading_page (js "Filming locations") sample_siblings)
  = [js "Paris, France"; js "London, UK"]
  ∧ (trimmed (js "London, UK") ∧ js "London, UK" ≠ []
     ∧ ∀ x, x ∈ [10%N; ch ";"; 8212%N; 8211%N; ch "-"] → x ∉ js "London, UK")
  ∧ p_headings (heading_page (js "Plot") sample_siblings) ≠ []
  ∧ heading_locations (heading_page (js "Plot") sample_siblings) = [].
Proof.
  split; [by vm_compute |]. split; [| split; [done |]].
  - apply (proj1 (heading_phrases_clean
                    (heading_page (js "Filming locations") sample_siblings))).
    vm_compute. apply elem_of_cons. right. apply elem_of_cons. by left.
  - apply (proj2 (heading_phrases_clean
                    (heading_page (js "Plot") sample_siblings))).
    apply Forall_cons. split; [by vm_compute | apply Forall_nil_2].
Defined.

(* ================================================================== *)
(** * The fallback scan *)
(* ================================================================== *)

Section Fallback.

Implicit Types (s w n : jsstring).

(** A literal under the [i] flag compares the input with the literal,
    both in upper case. *)
Lemma rmatch_lit_ci {A} w s c (k : jsstring → caps → option A) :
  rmatch (lit_ci w) s c k
  = if startsWith (toUpperCase w) (toUpperCase s)
    then k (drop (length w) s) c else None.
Proof.
  revert s. induction w as [|x w IH]; intros s; [done |].
  destruct s as [|y s'].
  { destruct w; reflexivity. }
  cbn [toUpperCase map startsWith length drop].
  destruct w as [|x' w].
  - change (lit_ci [x]) with (Chr (is_ci x)). cbn [rmatch]. unfold is_ci.
    rewrite (N.eqb_sym (upper y)).
    destruct (upper x =? upper y)%N; [| done]. by rewrite drop_0.
  - change (lit_ci (x :: x' :: w)) with (Seq (Chr (is_ci x)) (lit_ci (x' :: w))).
    cbn [rmatch]. unfold is_ci at 1. rewrite (N.eqb_sym (upper y)).
    destruct (upper x =? upper y)%N; [| done]. cbn [andb]. apply IH.
Qed.

(** For a lower-case letter or a space of the pattern, comparing in upper
    case is comparing with the lower-cased input. *)
Lemma upper_lower_eq x y :
  between 97 122 x || (x =? 32)%N = true →
  (upper x =? upper y)%N = (x =? lower y)%N.
Proof.
  unfold upper, lower, between. intros H.
  apply Bool.eq_iff_eq_true. rewrite !N.eqb_eq.
  apply orb_prop in H as [H | H%N.eqb_eq].
  - apply andb_prop in H as [H1%N.leb_le H2%N.leb_le].
    destruct (97 <=? x)%N eqn:E1, (x <=? 122)%N eqn:E2;
      try (apply N.leb_gt in E1; lia); try (apply N.leb_gt in E2; lia).
    cbn [andb].
    destruct ((97 <=? y) && (y <=? 122))%N eqn:Ey,
             ((65 <=? y) && (y <=? 90))%N eqn:Ey';
      repeat match goal with
             | H : (_ && _)%bool = true |- _ => apply andb_prop in H as [? ?]
             | H : (_ && _)%bool = false |- _ => apply andb_false_iff in H
             | H : (_ <=? _)%N = true |- _ => apply N.leb_le in H
             end;
      rewrite ?N.leb_gt in *; lia.
  - subst x. change (97 <=? 32)%N with false. cbn [andb].
    destruct ((97 <=? y) && (y <=? 122))%N eqn:Ey,
             ((65 <=? y) && (y <=? 90))%N eqn:Ey';
      repeat match goal with
             | H : (_ && _)%bool = true |- _ => apply andb_prop in H as [? ?]
             | H : (_ && _)%bool = false |- _ => apply andb_false_iff in H
             | H : (_ <=? _)%N = true |- _ => apply N.leb_le in H
             end;
      rewrite ?N.leb_gt in *; lia.
Qed.

Lemma startsWith_upper_lower n s :
  Forall (λ x, between 97 122 x || (x =? 32)%N = true) n →
  startsWith (toUpperCase n) (toUpperCase s) = startsWith n (toLowerCase s).
Proof.
  intros Hn. revert s. induction Hn as [|x n Hx _ IH]; intros s; [done |].
  destruct s as [|y s]; [done |]. cbn [toUpperCase toLowerCase map startsWith].
  rewrite (upper_lower_eq x y Hx). f_equal. apply IH.
Qed.

Lemma startsWith_app_includes a b t :
  startsWith (a ++ b) t = true → includes t b = true.
Proof.
  revert t. induction a as [|x a IH]; intros t.
  - cbn [app]. intros H. destruct t; simpl; by rewrite H.
  - destruct t as [|y t]; [done |]. cbn [app startsWith].
    intros [_ H]%andb_prop. apply IH in H.
    cbn [includes]. rewrite H. by rewrite orb_true_r.
Qed.

Lemma startsWith_app_l a b t :
  startsWith (a ++ b) t = true → startsWith a t = true.
Proof.
  revert t. induction a as [|x a IH]; intros t; [done |].
  destruct t as [|y t]; [done |]. cbn [app startsWith].
  intros [-> H]%andb_prop. by apply IH.
Qed.

(** The fallback pattern matches at the head of the input exactly when
    one of three of its literals starts there. *)
Lemma match_at_fallback s :
  match match_at fallback_re s with Some _ => true | None => false end
  = startsWith (js "filming location") (toLowerCase s)
    || startsWith (js "locations used") (toLowerCase s)
    || startsWith (js "location") (toLowerCase s).
Proof.
  unfold match_at, fallback_re. cbn [rmatch]. rewrite !rmatch_lit_ci.
  rewrite !startsWith_upper_lower by (by vm_compute; repeat constructor).
  destruct (startsWith (js "filming location") (toLowerCase s)) eqn:E1; [done |].
  destruct (startsWith (js "filming locations") (toLowerCase s)) eqn:E2.
  { apply (startsWith_app_l (js "filming location") (js "s")) in E2. congruence. }
  destruct (startsWith (js "locations used") (toLowerCase s)) eqn:E3; [done |].
  destruct (startsWith (js "location") (toLowerCase s)) eqn:E4; [| done].
  cbn [orb]. by repeat case_match.
Qed.

Lemma search_fallback i s :
  match search fallback_re i s with Some _ => true | None => false end
  = includes (toLowerCase s) (js "location").
Proof.
  revert i. induction s as [|y s IH]; intros i.
  - by vm_compute.
  - cbn [search]. pose proof (match_at_fallback (y :: s)) as Hm.
    destruct (match_at fallback_re (y :: s)) as [[s' c]|].
    + symmetry in Hm. apply orb_prop in Hm as [Hm | Hm];
        [apply orb_prop in Hm as [Hm | Hm] |].
      * symmetry. by apply (startsWith_app_includes (js "filming ") (js "location")).
      * symmetry. cbn [includes toLowerCase map].
        apply (startsWith_app_l (js "location") (js "s used")) in Hm.
        cbn [toLowerCase map] in Hm. by rewrite Hm.
      * symmetry. cbn [includes toLowerCase map].
        cbn [toLowerCase map] in Hm. by rewrite Hm.
    + rewrite IH. symmetry in Hm.
      apply orb_false_iff in Hm as [_ Hm].
      change (toLowerCase (y :: s)) with (lower y :: toLowerCase s) in *.
      cbn [includes]. by rewrite Hm.
Qed.

End Fallback.

(** X14. The fallback pattern keeps a paragraph exactly when its text
    contains [location] in some letter case: the three longer
    alternatives of the pattern add nothing. The fallback strategy, when
    nothing was found before, is therefore the trimmed paragraphs that
    contain that word. *)
Theorem fallback_keeps_location (p : jsstring) (page : Page) :
  test fallback_re p = includes (toLowerCase p) (js "location")
  ∧ fallback_locations page []
    = filter (λ p, includes (toLowerCase p) (js "location") = true)
             (map trim (p_paragraphs page)).
Proof.
  assert (H : ∀ p, test fallback_re p = includes (toLowerCase p) (js "location")).
  { intros q. unfold test, str_match. apply search_fallback. }
  split; [apply H |].
  unfold fallback_locations. cbn [length Nat.eqb].
  apply list_filter_iff. intros q. by rewrite H.
Qed.

(* ================================================================== *)
(** * More on the markup extractor *)
(* ================================================================== *)

Section Markup.

Implicit Types (s w t : jsstring) (c : caps).

(** A lazy repetition stops at the first place where what follows
    succeeds. *)
Lemma rep_lazy_minimal {A} p s (k : jsstring → option A) x :
  rep_lazy p 0 None s k = Some x →
  ∃ w s', s = w ++ s' ∧ k s' = Some x
          ∧ ∀ w1 w2, w = w1 ++ w2 → w2 ≠ [] → k (w2 ++ s') = None.
Proof.
  induction s as [|a s IH].
  - cbn [rep_lazy]. destruct (k []) as [y|] eqn:Hk; [| done]. intros [= ->].
    exists [], []. split; [done |]. split; [done |].
    intros w1 w2 E Hne. by destruct w1, w2.
  - cbn [rep_lazy]. destruct (k (a :: s)) as [y|] eqn:Hk.
    + intros [= ->]. exists [], (a :: s). split; [done |]. split; [done |].
      intros w1 w2 E Hne. by destruct w1, w2.
    + destruct (p a && may_take None); [| done]. cbn [pred less].
      intros (w & s' & -> & Hs' & Hmin)%IH.
      exists (a :: w), s'. split; [done |]. split; [done |].
      intros [|b w1] w2 E Hne.
      * cbn [app] in E. subst w2. exact Hk.
      * cbn [app] in E. injection E as _ E. by apply (Hmin w1 w2).
Qed.

(** The lookahead [(?==+)] asks for an equals sign next. *)
Lemma rmatch_look_equals t c :
  rmatch (Look (plus (eqc "="))) t c (λ s' c', Some (s', c'))
  = match t with
    | x :: _ => if eqc "=" x then Some (t, c) else None
    | [] => None
    end.
Proof.
  unfold plus. cbn [rmatch]. destruct t as [|x t]; [done |].
  cbn [rep_greedy]. destruct (eqc "=" x); [| done]. cbn [andb may_take pred less].
  by rewrite (rep_greedy_total (eqc "=") t (λ _, c)).
Qed.

Lemma str_match_at r s m :
  str_match r s = Some m →
  ∃ pre, s = pre ++ m_whole m ++ m_rest m
         ∧ match_at r (m_whole m ++ m_rest m) = Some (m_rest m, m_groups m).
Proof.
  unfold str_match. generalize 0 as i.
  assert (Hhere : ∀ i s s' c, match_at r s = Some (s', c) →
    let m := {| m_index := i; m_whole := consumed s s';
                m_groups := c; m_rest := s' |} in
    s = [] ++ m_whole m ++ m_rest m
    ∧ match_at r (m_whole m ++ m_rest m) = Some (m_rest m, m_groups m)).
  { intros i s0 s' c Hm. pose proof Hm as [Hs _]%match_at_sound. cbn.
    by rewrite <- Hs. }
  induction s as [|a s IH]; intros i.
  - cbn [search]. destruct (match_at r []) as [[s' c]|] eqn:Hm; [| done].
    intros [= <-]. exists []. by apply Hhere.
  - cbn [search]. destruct (match_at r (a :: s)) as [[s' c]|] eqn:Hm.
    + intros [= <-]. exists []. by apply Hhere.
    + intros (pre & -> & H)%IH. by exists (a :: pre).
Qed.

(** A match of the section pattern at the head of the input: the heading
    in group 1, then a body without an equals sign, then an equals
    sign. *)
Lemma match_at_section s s' c :
  match_at section_re s = Some (s', c) →
  ∃ heading body t,
    s = heading ++ body ++ s' ∧ c !! 1 = Some heading
    ∧ (∃ u, heading = ch "=" :: ch "=" :: u)
    ∧ (ch "=" ∉ body) ∧ s' = ch "=" :: t.
Proof.
  unfold match_at, section_re.
  remember (Group 1 _) as G eqn:HG. remember (Look _) as K eqn:HK.
  unfold lazy_star. cbn [rmatch].
  intros (s1 & c1 & HmG & Hrest)%rmatch_sound.
  apply rep_lazy_minimal in Hrest as (body & s2 & -> & Hk & Hmin).
  subst K. rewrite rmatch_look_equals in Hk.
  destruct s2 as [|x t]; [done |]. destruct (eqc "=" x) eqn:Hx; [| done].
  injection Hk as <- <-. apply N.eqb_eq in Hx. subst x.
  subst G. unfold plus, star in HmG. cbn [matches] in HmG.
  destruct HmG as (heading & c0 & Hin & Hs & ->).
  destruct Hin as (p7 & d7 & (p6 & d6 & (p5 & d5 & (p4 & d4 & (p3 & d3
            & (p2 & d2 & (x1 & Hs4 & Hx1%N.eqb_eq & _)
                       & (w2 & Hw2 & Hall2 & Hlen2 & _))
            & (v3 & Hv3 & _)) & H4%matches_suffix) & (v5 & Hv5 & _))
            & (x6 & Hx6 & _)) & (v7 & Hv7 & _)).
  destruct H4 as [v4 Hv4].
  exists heading, body, t. split; [done |].
  split; [apply lookup_insert_eq |]. split.
  - destruct w2 as [|x2 w2]; [simpl in Hlen2; lia |].
    apply Forall_cons in Hall2 as [Hx2%N.eqb_eq _]. subst x1 x2.
    exists (w2 ++ v3 ++ v4 ++ v5 ++ x6 :: v7).
    eapply app_inv_tail. rewrite <- Hs.
    rewrite Hs4, Hw2, Hv3, Hv4, Hv5, Hx6, Hv7.
    cbn [app]. by rewrite <- !app_assoc.
  - split; [| done]. intros Hin.
    apply list_elem_of_split in Hin as (w1 & w2' & ->).
    specialize (Hmin w1 (ch "=" :: w2') eq_refl ltac:(done)).
    rewrite rmatch_look_equals in Hmin. cbn [app] in Hmin.
    change (eqc "=" (ch "=")) with true in Hmin. done.
Qed.

End Markup.

(** X15. The section the markup extractor cuts out starts with the
    heading (group 1, two equals signs first) and runs up to the next
    equals sign of the markup, whatever it belongs to: the body holds no
    equals sign at all, and an equals sign follows it. *)
Theorem section_stops_at_equals (wikitext : jsstring) (m : MatchResult) :
  str_match section_re wikitext = Some m →
  ∃ heading body t,
    m_whole m = heading ++ body
    ∧ grp m 1 = Some heading
    ∧ (∃ u, heading = ch "=" :: ch "=" :: u)
    ∧ (ch "=" ∉ body)
    ∧ m_rest m = ch "=" :: t.
Proof.
  intros (pre & _ & Hat)%str_match_at.
  apply match_at_section in Hat as (heading & body & t & Hs & Hg & Hh & Hb & Hr).
  exists heading, body, t. split; [| done].
  eapply app_inv_tail. rewrite Hs. by rewrite <- app_assoc.
Qed.

Lemma section_stops_at_equals_witness :
  ∃ m, str_match section_re
         (js "== Filming locations ==" ++ [10%N]
          ++ js "Shot at [http://x.org?a=b here]" ++ [10%N] ++ js "== Cast ==")
       = Some m
       ∧ m_whole m = js "== Filming locations ==" ++ [10%N]
                     ++ js "Shot at [http://x.org?a"
       ∧ ∃ heading body t,
           m_whole m = heading ++ body
           ∧ grp m 1 = Some heading
           ∧ (∃ u, heading = ch "=" :: ch "=" :: u)
           ∧ (ch "=" ∉ body)
           ∧ m_rest m = ch "=" :: t.
Proof.
  eexists. split; [vm_compute; reflexivity |]. split; [by vm_compute |].
  apply (section_stops_at_equals
           (js "== Filming locations ==" ++ [10%N]
            ++ js "Shot at [http://x.org?a=b here]" ++ [10%N] ++ js "== Cast ==")).
  by vm_compute.
Defined.

Section PlainText.

Implicit Types (s : jsstring).

Lemma replace_go_unmatched r tpl (P : N → Prop) s :
  match_at r [] = None →
  (∀ x t, P x → match_at r (x :: t) = None) →
  Forall P s → replace_go r tpl 0 s = s.
Proof.
  intros Hnil Hcons. induction 1 as [|x s Hx _ IH]; cbn [replace_go].
  - by rewrite Hnil.
  - by rewrite (Hcons x s Hx), IH.
Qed.

Lemma replace_all_plain r tpl (c0 : N) s :
  match_at r [] = None →
  (∀ x t, x ≠ c0 → match_at r (x :: t) = None) →
  c0 ∉ s → replace_all r tpl s = s.
Proof.
  intros Hnil Hcons Hs. unfold replace_all.
  apply (replace_go_unmatched r tpl (λ x, x ≠ c0)); [done.. |].
  apply Forall_forall. intros x Hx ->. done.
Qed.

Lemma rmatch_lit_head {A} (c0 : N) w x t c (k : jsstring → caps → option A) :
  x ≠ c0 → rmatch (lit (c0 :: w)) (x :: t) c k = None.
Proof.
  intros Hx. destruct w; cbn [lit rmatch];
    destruct (N.eqb_spec c0 x) as [E | _]; congruence.
Qed.

Lemma rmatch_lit_nil {A} (c0 : N) w c (k : jsstring → caps → option A) :
  rmatch (lit (c0 :: w)) [] c k = None.
Proof. by destruct w. Qed.

Lemma clean_markup_plain s :
  ch "'" ∉ s → ch "{" ∉ s → ch "[" ∉ s → clean_markup s = s.
Proof.
  intros Hq Hb Hs. unfold clean_markup.
  rewrite (replace_all_plain bold_re [] (ch "'") s).
  - rewrite (replace_all_plain template_re [] (ch "{") s).
    + rewrite (replace_all_plain extlink_re [] (ch "[") s).
      * apply (replace_all_plain wikilink_re _ (ch "[") s); [| | exact Hs].
        -- unfold match_at, wikilink_re. cbn [rmatch]. apply rmatch_lit_nil.
        -- intros x t Hx. unfold match_at, wikilink_re. cbn [rmatch].
           by apply rmatch_lit_head.
      * unfold match_at, extlink_re. cbn [rmatch]. apply rmatch_lit_nil.
      * intros x t Hx. unfold match_at, extlink_re. cbn [rmatch].
        by apply rmatch_lit_head.
      * exact Hs.
    + unfold match_at, template_re. cbn [rmatch]. apply rmatch_lit_nil.
    + intros x t Hx. unfold match_at, template_re. cbn [rmatch].
      by apply rmatch_lit_head.
    + exact Hb.
  - unfold match_at, bold_re. apply rmatch_lit_nil.
  - intros x t Hx. unfold match_at, bold_re. by apply rmatch_lit_head.
  - exact Hq.
Qed.

End PlainText.

(** X16. The markup cleanup leaves plain text alone: a section without an
    apostrophe, an opening brace or an opening bracket comes out of the
    four replacements unchanged. *)
Theorem cleanup_keeps_plain_text (section : jsstring) :
  (∀ x, x ∈ [ch "'"; ch "{"; ch "["] → x ∉ section) →
  clean_markup section = section.
Proof.
  intros H. apply clean_markup_plain; apply H; apply list_elem_of_In; simpl; tauto.
Qed.

Lemma cleanup_keeps_plain_text_witness :
  clean_markup (js "* Paris, France (Louvre); 48.86, 2.33")
  = js "* Paris, France (Louvre); 48.86, 2.33".
Proof.
  apply cleanup_keeps_plain_text. intros x Hx Hin.
  repeat (apply elem_of_cons in Hx as [-> | Hx];
          [vm_compute in Hin;
           repeat (apply elem_of_cons in Hin as [Hin | Hin]; [discriminate Hin |]);
           by apply elem_of_nil in Hin |]).
  by apply elem_of_nil in Hx.
Defined.
